(** * Sistema experto Pokémon: forward-chaining engine and knowledge base

    A shallow embedding of [inference.py], [kb.py], [data_loader.py], the
    [has_type_advantage] helpers of [main.py] and [app_streamlit.py] and
    [normalize_identifier] of [app_streamlit.py].

    - The fact store ([FactBase = Dict[str, Any]]) is a [gmap string value];
      [value] is the universe of Python objects the store holds: [None],
      booleans, numbers, NaN, strings, lists and (nested) dictionaries.  Nested
      dictionaries (move records, recommendations) are association lists in
      insertion order.
    - Numbers kept in the fact store are only ever compared by the rules, so
      they are held by their exact value, a rational ([Q]): Python compares
      [int]s and finite [float]s by value.  A float NaN, which
      [float(input())] accepts, is the value [VNaN]: every comparison with
      it is false.  [effectiveness] multiplies, so the loader is modelled on
      binary64 floats ([PrimFloat]).
    - A Python exception is a [Raise] in the [result] monad.
    - Mutation of the store is explicit state passing: an action maps the
      store before to the store after.  The list under ["recommendations"]
      is owned by the store (no other entry shares the list object). *)

From Stdlib Require Import QArith Strings.Ascii.
From Stdlib Require Import Floats.PrimFloat Floats.SpecFloat Floats.FloatAxioms.
From stdpp Require Import gmap strings list fin_maps pretty.

Set Warnings "-register-all,-clear-no-such-hyp".
Set Default Proof Using "Type".

(** ** Exceptions and results *)

Inductive exn := KeyError | TypeError | AttributeError | IndexError | ValueError.

Inductive result (A : Type) : Type :=
| Ok (a : A)
| Raise (e : exn).
Arguments Ok {A} a.
Arguments Raise {A} e.

#[global] Instance result_ret : MRet result := λ A a, Ok a.
#[global] Instance result_bind : MBind result := λ A B k m,
  match m with Ok a => k a | Raise e => Raise e end.
#[global] Instance result_fmap : FMap result := λ A B g m,
  match m with Ok a => Ok (g a) | Raise e => Raise e end.

Definition is_ok {A} (m : result A) : bool :=
  match m with Ok _ => true | Raise _ => false end.

(** ** Python values *)

Inductive value :=
| VNone
| VBool (b : bool)
| VNum (q : Q)
| VNaN
| VStr (s : string)
| VList (l : list value)
| VDict (d : list (string * value)).

Abbreviation FactBase := (gmap string value).

(** [bool(v)] *)
Definition truthy (v : value) : bool :=
  match v with
  | VNone => false
  | VBool b => b
  | VNum q => negb (Qeq_bool q 0)
  | VNaN => true
  | VStr s => negb (String.eqb s "")
  | VList l => negb (bool_decide (l = []))
  | VDict d => negb (bool_decide (d = []))
  end.

(** [bool] is a subclass of [int]: [True] counts as 1 in comparisons. *)
Definition num_of (v : value) : option Q :=
  match v with
  | VNum q => Some q
  | VBool true => Some 1%Q
  | VBool false => Some 0%Q
  | _ => None
  end.

Fixpoint assoc_get (d : list (string * value)) (k : string) : option value :=
  match d with
  | [] => None
  | (k', v) :: d' => if String.eqb k' k then Some v else assoc_get d' k
  end.

(** [a == b]; never raises on this universe.  A NaN equals nothing, itself
    included (two NaN in containers are taken to be distinct objects). *)
Fixpoint py_eq (a b : value) : bool :=
  match a, b with
  | VNone, VNone => true
  | VStr s, VStr t => String.eqb s t
  | VList la, VList lb =>
      (fix go (la lb : list value) : bool :=
         match la, lb with
         | [], [] => true
         | x :: la', y :: lb' => py_eq x y && go la' lb'
         | _, _ => false
         end) la lb
  | VDict da, VDict db =>
      Nat.eqb (length da) (length db) &&
      (fix go (da : list (string * value)) : bool :=
         match da with
         | [] => true
         | (k, v) :: da' =>
             match assoc_get db k with
             | Some w => py_eq v w && go da'
             | None => false
             end
         end) da
  | (VBool _ | VNum _), (VBool _ | VNum _) =>
      match num_of a, num_of b with
      | Some x, Some y => Qeq_bool x y
      | _, _ => false
      end
  | _, _ => false
  end.

Inductive cmp_op := OpLt | OpLe | OpGt | OpGe.

Definition cmp_holds (op : cmp_op) (c : comparison) : bool :=
  match op, c with
  | OpLt, Lt | OpLe, Lt | OpLe, Eq | OpGt, Gt | OpGe, Gt | OpGe, Eq => true
  | _, _ => false
  end.

(** [a < b], [a <= b], [a > b], [a >= b]: numbers by value and false as
    soon as one side is a NaN, strings and lists lexicographically, anything
    else is a [TypeError]. *)
Fixpoint py_compare (op : cmp_op) (a b : value) : result bool :=
  match a, b with
  | VStr s, VStr t => Ok (cmp_holds op (String.compare s t))
  | VList la, VList lb =>
      (fix go (la lb : list value) : result bool :=
         match la, lb with
         | x :: la', y :: lb' =>
             if py_eq x y then go la' lb' else py_compare op x y
         | _, _ => Ok (cmp_holds op (Nat.compare (length la) (length lb)))
         end) la lb
  | (VBool _ | VNum _ | VNaN), (VBool _ | VNum _ | VNaN) =>
      match num_of a, num_of b with
      | Some x, Some y => Ok (cmp_holds op (Qcompare x y))
      | _, _ => Ok false
      end
  | _, _ => Raise TypeError
  end.

(** [len(v)] *)
Definition py_len (v : value) : result nat :=
  match v with
  | VStr s => Ok (String.length s)
  | VList l => Ok (length l)
  | VDict d => Ok (length d)
  | _ => Raise TypeError
  end.

(** Strings hold UTF-8: a character is a lead byte and the continuation
    bytes (10xxxxxx) after it. *)
Definition is_continuation (c : Ascii.ascii) : bool :=
  match c with
  | Ascii.Ascii _ _ _ _ _ _ false true => true
  | _ => false
  end.

Fixpoint chars (s : string) : list string :=
  match s with
  | EmptyString => []
  | String c s' =>
      match chars s' with
      | String c' x :: xs =>
          if is_continuation c' then String c (String c' x) :: xs
          else String c EmptyString :: String c' x :: xs
      | xs => String c EmptyString :: xs
      end
  end.

(** [iter(v)], as the list of the items it yields. *)
Definition py_iter (v : value) : result (list value) :=
  match v with
  | VList l => Ok l
  | VStr s => Ok (VStr <$> chars s)
  | VDict d => Ok ((λ kv, VStr kv.1) <$> d)
  | _ => Raise TypeError
  end.

(** [v[k]] for a string key [k] *)
Definition py_getitem (v : value) (k : string) : result value :=
  match v with
  | VDict d => match assoc_get d k with Some x => Ok x | None => Raise KeyError end
  | _ => Raise TypeError
  end.

(** [v[0]] *)
Definition py_first (v : value) : result value :=
  match v with
  | VList (x :: _) => Ok x
  | VList [] => Raise IndexError
  | VStr s => match chars s with c :: _ => Ok (VStr c) | [] => Raise IndexError end
  | VDict _ => Raise KeyError
  | _ => Raise TypeError
  end.

(** [v.get(k, d)] *)
Definition py_dict_get (v : value) (k : string) (d : value) : result value :=
  match v with
  | VDict m => Ok (default d (assoc_get m k))
  | _ => Raise AttributeError
  end.

(** [f[k]] and [f.get(k, d)] on the fact store *)
Definition fact_getitem (f : FactBase) (k : string) : result value :=
  match f !! k with Some v => Ok v | None => Raise KeyError end.

Definition fact_get (f : FactBase) (k : string) (d : value) : value :=
  default d (f !! k).

(** [a and b] on truth values, [b] evaluated only when [a] is true. *)
Definition and_then (a b : result bool) : result bool :=
  x ← a; if x : bool then b else Ok false.
Infix "&?" := and_then (at level 41, right associativity).

Fixpoint py_all (p : value → result bool) (l : list value) : result bool :=
  match l with
  | [] => Ok true
  | x :: l' => b ← p x; if b : bool then py_all p l' else Ok false
  end.

(** ** inference.py *)

Record Rule := mkRule {
  name : string;
  when : FactBase → result bool;
  then_ : FactBase → result FactBase;
  explain : string
}.

Record InferenceResult := mkInferenceResult {
  facts : FactBase;
  fired_rules : list string;
  trace : list string
}.

(** The loop variables of [forward_chain]: the store, [fired] and [trace]. *)
Record engine_state := mkState {
  st_facts : FactBase;
  st_fired : gset string;
  st_trace : list string
}.

Definition trace_line (r : Rule) : string :=
  "[" +:+ name r +:+ "] " +:+ explain r.

Definition fire (r : Rule) (f' : FactBase) (st : engine_state) : engine_state :=
  {| st_facts := f';
     st_fired := {[ name r ]} ∪ st_fired st;
     st_trace := st_trace st ++ [trace_line r] |}.

(** The inner [for r in rules] loop, from rule list [rs] on. *)
Fixpoint sweep (rs : list Rule) (st : engine_state) (fired_any : bool)
  : result (engine_state * bool) :=
  match rs with
  | [] => Ok (st, fired_any)
  | r :: rs' =>
      if decide (name r ∈ st_fired st) then sweep rs' st fired_any
      else
        b ← when r (st_facts st);
        if b : bool then
          f' ← then_ r (st_facts st);
          sweep rs' (fire r f' st) true
        else sweep rs' st fired_any
  end.

(** The outer [for _ in range(max_loops)] loop with its [break]. *)
Fixpoint loops (n : nat) (rs : list Rule) (st : engine_state) : result engine_state :=
  match n with
  | O => Ok st
  | S n' =>
      '(st', fired_any) ← sweep rs st false;
      if fired_any : bool then loops n' rs st' else Ok st'
  end.

Definition init_state (f : FactBase) : engine_state :=
  {| st_facts := f; st_fired := ∅; st_trace := [] |}.

Section ForwardChain.
(** [list(fired)]: the order in which the interpreter enumerates a set. *)
Variable list_of_set : gset string → list string.

Definition forward_chain (f : FactBase) (rules : list Rule) (max_loops : Z)
  : result InferenceResult :=
  st ← loops (Z.to_nat max_loops) rules (init_state f);
  Ok {| facts := st_facts st;
        fired_rules := list_of_set (st_fired st);
        trace := st_trace st |}.

(** The call [forward_chain(facts, rules)], [max_loops] left at 20. *)
Definition forward_chain_default (f : FactBase) (rules : list Rule) :=
  forward_chain f rules 20.
End ForwardChain.

(** *** The engine with its history

    The same two loops, recording besides the state the rules whose action
    was invoked, in order, and for every sweep whether it fired a rule. *)

Fixpoint sweep_hist (rs : list Rule) (st : engine_state) (fired_any : bool)
  (log : list Rule) : result (engine_state * bool * list Rule) :=
  match rs with
  | [] => Ok (st, fired_any, log)
  | r :: rs' =>
      if decide (name r ∈ st_fired st) then sweep_hist rs' st fired_any log
      else
        b ← when r (st_facts st);
        if b : bool then
          f' ← then_ r (st_facts st);
          sweep_hist rs' (fire r f' st) true (log ++ [r])
        else sweep_hist rs' st fired_any log
  end.

Fixpoint loops_hist (n : nat) (rs : list Rule) (st : engine_state)
  (log : list Rule) (sweeps : list bool)
  : result (engine_state * list Rule * list bool) :=
  match n with
  | O => Ok (st, log, sweeps)
  | S n' =>
      '(st', fired_any, log') ← sweep_hist rs st false log;
      if fired_any : bool then loops_hist n' rs st' log' (sweeps ++ [true])
      else Ok (st', log', sweeps ++ [false])
  end.

Definition run_hist (f : FactBase) (rules : list Rule) (max_loops : Z) :=
  loops_hist (Z.to_nat max_loops) rules (init_state f) [] [].

(** The rules that fired, in firing order. *)
Definition firing_log (f : FactBase) (rules : list Rule) (max_loops : Z) : list Rule :=
  match run_hist f rules max_loops with
  | Ok (_, log, _) => log
  | Raise _ => []
  end.

(** One entry per sweep performed: did it fire a rule? *)
Definition sweep_flags (f : FactBase) (rules : list Rule) (max_loops : Z) : list bool :=
  match run_hist f rules max_loops with
  | Ok (_, _, sweeps) => sweeps
  | Raise _ => []
  end.

(** ** kb.py *)

Definition or_else (a b : result bool) : result bool :=
  x ← a; if x : bool then Ok true else b.
Infix "|?" := or_else (at level 42, right associativity).

Definition is_None (v : value) : bool :=
  match v with VNone => true | _ => false end.

(** [v is True] *)
Definition is_True (v : value) : bool :=
  match v with VBool true => true | _ => false end.

(** [facts.setdefault("recommendations", [])] followed by
    [facts["recommendations"].append({"text": text, "priority": priority})].
    Only a list has [append]; when it is missing nothing has been written. *)
Definition add_reco (f : FactBase) (text : string) (priority : Z) : result FactBase :=
  let f1 := match f !! "recommendations" with
            | None => <["recommendations" := VList []]> f
            | Some _ => f
            end in
  l ← fact_getitem f1 "recommendations";
  match l with
  | VList recos =>
      Ok (<["recommendations" :=
              VList (recos ++ [VDict [("text", VStr text);
                                      ("priority", VNum (inject_Z priority))]])]> f1)
  | _ => Raise AttributeError
  end.

(** [lambda m: m.get("score", 0.0)] *)
Definition score_key (m : value) : result value :=
  py_dict_get m "score" (VNum 0).

(** The loop of [max(iterable, key=key)] after its first item: a later item
    replaces the best one only when its key is strictly greater. *)
Fixpoint max_loop (key : value → result value) (items : list value)
  (best kbest : value) : result value :=
  match items with
  | [] => Ok best
  | x :: items' =>
      kx ← key x;
      b ← py_compare OpGt kx kbest;
      if b : bool then max_loop key items' x kx
      else max_loop key items' best kbest
  end.

Definition py_max (key : value → result value) (v : value) : result value :=
  items ← py_iter v;
  match items with
  | [] => Raise ValueError
  | x :: items' => kx ← key x; max_loop key items' x kx
  end.

Definition compute_best_move (f : FactBase) : result value :=
  let moves := fact_get f "my_moves" (VList []) in
  if negb (truthy moves) then Ok VNone
  else py_max score_key moves.

(** [f["best_move"][k]] *)
Definition best_move_field (f : FactBase) (k : string) : result value :=
  bm ← fact_getitem f "best_move"; py_getitem bm k.

(** [f[k] op c] and [c op f[k]] against a numeric literal [c] *)
Definition fact_cmp (f : FactBase) (k : string) (op : cmp_op) (c : Q) : result bool :=
  v ← fact_getitem f k; py_compare op v (VNum c).

Definition best_eff_cmp (f : FactBase) (op : cmp_op) (c : Q) : result bool :=
  v ← best_move_field f "eff"; py_compare op v (VNum c).

(** [lo <= f[k] <= hi]: [f[k]] is evaluated once. *)
Definition fact_between (f : FactBase) (k : string) (lo hi : Q) : result bool :=
  v ← fact_getitem f k;
  py_compare OpLe (VNum lo) v &? py_compare OpLe v (VNum hi).

(** [len(f.get(k, [])) > 0] and [len(f.get(k, [])) == 0] *)
Definition fact_nonempty (f : FactBase) (k : string) : result bool :=
  n ← py_len (fact_get f k (VList [])); Ok (bool_decide (0 < n)).

Definition fact_empty (f : FactBase) (k : string) : result bool :=
  n ← py_len (fact_get f k (VList [])); Ok (bool_decide (n = 0)).

(** Truth value of [f.get(k)] *)
Definition fact_truthy (f : FactBase) (k : string) : bool :=
  truthy (fact_get f k VNone).

Section KnowledgeBase.
(** [str(v)] for a value that is not a string, and [s.capitalize()]: the
    interpreter's, taken as they are.  Only the text of a recommendation
    depends on them. *)
Variable str_of : value → string.
Variable capitalize : string → string.

(** A replacement field [{v}] of an f-string *)
Definition fmt (v : value) : string :=
  match v with VStr s => s | _ => str_of v end.

Definition py_capitalize (v : value) : result string :=
  match v with VStr s => Ok (capitalize s) | _ => Raise AttributeError end.

Definition R1_ATTACK_WITH_TYPE_ADVANTAGE : Rule := {|
  name := "R1_ATTACK_WITH_TYPE_ADVANTAGE";
  when := λ f, fact_cmp f "my_hp_pct" OpGe 60 &? Ok (is_True (fact_get f "my_advantage" VNone));
  then_ := λ f, add_reco f "Tienes mucha vida y ventaja de tipos: atacar es una buena opción." 80;
  explain := "Con vida alta y ventaja de tipos, es razonable jugar ofensivo."
|}.

Definition R2_SWITCH_IF_LOW_HP_AND_ENEMY_ADVANTAGE : Rule := {|
  name := "R2_SWITCH_IF_LOW_HP_AND_ENEMY_ADVANTAGE";
  when := λ f, fact_cmp f "my_hp_pct" OpLe 35 &? Ok (is_True (fact_get f "enemy_advantage" VNone));
  then_ := λ f, add_reco f "Estás en desventaja de tipos y con poca vida: se recomienda cambiar de Pokémon." 95;
  explain := "En desventaja clara y con poca vida, lo experto es pivotar a otro Pokémon."
|}.

Definition R3_FINISH_ENEMY_IF_LOW_HP : Rule := {|
  name := "R3_FINISH_ENEMY_IF_LOW_HP";
  when := λ f, fact_cmp f "enemy_hp_pct" OpLe 25 &? Ok (is_True (fact_get f "my_advantage" VNone));
  then_ := λ f, add_reco f "El rival está muy tocado y tienes ventaja: intenta rematarlo este turno." 90;
  explain := "Con el rival en vida baja y ventaja, conviene buscar el KO."
|}.

Definition R4_NEUTRAL_PLAY_IF_NO_CLEAR_ADVANTAGE : Rule := {|
  name := "R4_NEUTRAL_PLAY_IF_NO_CLEAR_ADVANTAGE";
  when := λ f, fact_cmp f "my_hp_pct" OpGe 50 &? fact_cmp f "enemy_hp_pct" OpGe 50
               &? Ok (negb (fact_truthy f "my_advantage"))
               &? Ok (negb (fact_truthy f "enemy_advantage"));
  then_ := λ f, add_reco f "No hay ventaja clara de tipos: puedes optar por un movimiento seguro o ver qué hace el rival." 50;
  explain := "En emparejamientos neutros se recomienda jugar de forma segura."
|}.

Definition R5_RISKY_PLAY_IF_BOTH_LOW : Rule := {|
  name := "R5_RISKY_PLAY_IF_BOTH_LOW";
  when := λ f, fact_cmp f "my_hp_pct" OpLe 30 &? fact_cmp f "enemy_hp_pct" OpLe 30;
  then_ := λ f, add_reco f "Ambos estáis muy bajos de vida: cualquier turno puede decidir el combate." 70;
  explain := "Con ambos Pokémon en vida crítica, cada decisión tiene mucho impacto."
|}.

Definition D1_COMPUTE_BEST_MOVE : Rule := {|
  name := "D1_COMPUTE_BEST_MOVE";
  when := λ f, Ok (bool_decide (f !! "best_move" = None)) &? fact_nonempty f "my_moves";
  then_ := λ f, b ← compute_best_move f; Ok (<["best_move" := b]> f);
  explain := "Se calcula el mejor movimiento disponible según efectividad, potencia y STAB."
|}.

Definition best_move_known (f : FactBase) : result bool :=
  Ok (negb (is_None (fact_get f "best_move" VNone))).

Definition R6_USE_SUPER_EFFECTIVE : Rule := {|
  name := "R6_USE_SUPER_EFFECTIVE";
  when := λ f, best_move_known f &? best_eff_cmp f OpGe 2;
  then_ := λ f,
    n ← best_move_field f "name";
    e ← best_move_field f "eff";
    add_reco f ("Tu mejor opción ofensiva es " +:+ fmt n +:+ " (efectividad x" +:+ fmt e +:+ ").") 92;
  explain := "Cuando hay un movimiento súper eficaz, se prioriza ese ataque."
|}.

Definition R7_USE_NEUTRAL_BEST : Rule := {|
  name := "R7_USE_NEUTRAL_BEST";
  when := λ f, best_move_known f &?
               (e ← best_move_field f "eff";
                py_compare OpLt (VNum 0.5) e &? py_compare OpLt e (VNum 2));
  then_ := λ f,
    n ← best_move_field f "name";
    add_reco f ("No tienes movimientos súper eficaces. Usa " +:+ fmt n +:+ " como mejor opción neutral.") 75;
  explain := "Cuando no hay ventaja de tipos, se usa el movimiento neutral más fuerte."
|}.

Definition R8_SWITCH_IF_ALL_RESISTED : Rule := {|
  name := "R8_SWITCH_IF_ALL_RESISTED";
  when := λ f, best_move_known f &? best_eff_cmp f OpLe 0.5 &? fact_cmp f "enemy_hp_pct" OpGe 40;
  then_ := λ f, add_reco f "Tus movimientos son poco eficaces contra el rival. Plantéate cambiar de Pokémon." 85;
  explain := "Si todo lo que tienes es resistido y el rival tiene bastante vida, es preferible cambiar."
|}.

Definition R9_DEFEND_IF_VERY_LOW_HP_NO_KO : Rule := {|
  name := "R9_DEFEND_IF_VERY_LOW_HP_NO_KO";
  when := λ f, fact_cmp f "my_hp_pct" OpLe 25
               &? Ok (fact_truthy f "has_defensive_move")
               &? (Ok (is_None (fact_get f "best_move" VNone)) |? best_eff_cmp f OpLt 2);
  then_ := λ f, add_reco f "Tienes poca vida y no parece que puedas hacer un KO claro: usar un movimiento defensivo/curación es razonable." 88;
  explain := "Si no hay opción clara de eliminar al rival y estás muy tocado, prioriza sobrevivir."
|}.

Definition R10_FINISH_WITH_PRIORITY : Rule := {|
  name := "R10_FINISH_WITH_PRIORITY";
  when := λ f, fact_cmp f "enemy_hp_pct" OpLe 25 &? Ok (fact_truthy f "has_priority_move");
  then_ := λ f, add_reco f "El rival está muy bajo de vida y tienes un movimiento de prioridad: es buena idea usarlo para asegurar el KO." 93;
  explain := "La prioridad reduce el riesgo de que el rival te golpee antes en esta situación."
|}.

Definition R11_SWITCH_IF_SLOW_AND_WEAK : Rule := {|
  name := "R11_SWITCH_IF_SLOW_AND_WEAK";
  when := λ f, fact_cmp f "my_hp_pct" OpLe 40
               &? Ok (fact_truthy f "is_slower")
               &? Ok (fact_truthy f "enemy_advantage");
  then_ := λ f, add_reco f "Eres más lento, el rival tiene ventaja de tipos y vas justo de vida: la opción más segura es cambiar de Pokémon." 97;
  explain := "Ser más lento en desventaja de tipos aumenta la probabilidad de caer antes de actuar."
|}.

Definition R12_ATTACK_IF_FASTER_AND_OK_HP : Rule := {|
  name := "R12_ATTACK_IF_FASTER_AND_OK_HP";
  when := λ f, fact_cmp f "my_hp_pct" OpGe 40
               &? Ok (fact_truthy f "is_faster")
               &? best_move_known f
               &? best_eff_cmp f OpGe 1;
  then_ := λ f, add_reco f "Eres más rápido, tienes vida razonable y un movimiento al menos neutral: atacar es una jugada sólida." 78;
  explain := "Ser más rápido permite presionar al rival antes de que actúe."
|}.

Definition R13_STRONG_PRESSURE_IF_FASTER_SUPER_EFFECTIVE : Rule := {|
  name := "R13_STRONG_PRESSURE_IF_FASTER_SUPER_EFFECTIVE";
  when := λ f, fact_between f "my_hp_pct" 40 80
               &? fact_between f "enemy_hp_pct" 40 80
               &? Ok (fact_truthy f "is_faster")
               &? best_move_known f
               &? best_eff_cmp f OpGe 2;
  then_ := λ f, add_reco f "Tienes un movimiento súper eficaz siendo más rápido y ambos estáis a media vida: presionar fuerte puede darte una gran ventaja." 89;
  explain := "En situaciones equilibradas, un ataque súper eficaz y rápido suele decantar el combate."
|}.

Definition score_below_30 (m : value) : result bool :=
  s ← score_key m; py_compare OpLt s (VNum 30).

Definition R14_NO_GOOD_MOVES_WARNING : Rule := {|
  name := "R14_NO_GOOD_MOVES_WARNING";
  when := λ f, fact_nonempty f "my_moves"
               &? (ms ← fact_getitem f "my_moves"; items ← py_iter ms; py_all score_below_30 items);
  then_ := λ f, add_reco f "Ninguno de tus movimientos parece especialmente bueno (baja potencia o poco eficaz). Plantéate cambiar si es posible." 60;
  explain := "Si todos los movimientos tienen mala puntuación, quizá otro Pokémon tenga mejores opciones."
|}.

Definition R15_NO_MOVES_INFO : Rule := {|
  name := "R15_NO_MOVES_INFO";
  when := λ f, fact_empty f "my_moves";
  then_ := λ f, add_reco f "No se han especificado movimientos, solo puedo recomendar de forma general según tipos y vida." 40;
  explain := "La ausencia de información sobre movimientos limita la precisión de las recomendaciones."
|}.

Definition same_main_type (f : FactBase) : result bool :=
  mt ← fact_getitem f "my_types"; a ← py_first mt;
  et ← fact_getitem f "enemy_types"; b ← py_first et;
  Ok (py_eq a b).

Definition R16_SAME_MAIN_TYPE_BATTLE : Rule := {|
  name := "R16_SAME_MAIN_TYPE_BATTLE";
  when := λ f, fact_nonempty f "my_types"
               &? fact_nonempty f "enemy_types"
               &? same_main_type f
               &? Ok (negb (fact_truthy f "my_advantage"))
               &? Ok (negb (fact_truthy f "enemy_advantage"));
  then_ := λ f,
    add_reco f ("Tu " +:+ fmt (fact_get f "my_pokemon" (VStr "Pokémon"))
                +:+ " comparte el mismo tipo principal que "
                +:+ fmt (fact_get f "enemy_pokemon" (VStr "el rival"))
                +:+ ": los movimientos de cobertura de otros tipos pueden ser decisivos.") 65;
  explain := "En combates de mismo tipo, los movimientos de cobertura suelen marcar la diferencia."
|}.

Definition R17_EXPLAIN_TYPE_ADVANTAGE_WITH_NAMES : Rule := {|
  name := "R17_EXPLAIN_TYPE_ADVANTAGE_WITH_NAMES";
  when := λ f, Ok (fact_truthy f "my_pokemon")
               &? Ok (fact_truthy f "enemy_pokemon")
               &? Ok (fact_truthy f "my_advantage");
  then_ := λ f,
    mine ← (v ← fact_getitem f "my_pokemon"; py_capitalize v);
    theirs ← (v ← fact_getitem f "enemy_pokemon"; py_capitalize v);
    add_reco f (mine +:+ " tiene ventaja de tipos sobre " +:+ theirs
                +:+ ": mantener este emparejamiento suele ser beneficioso.") 55;
  explain := "Se ofrece una explicación específica de la ventaja de tipos usando los nombres de los Pokémon."
|}.

Definition rules : list Rule :=
  [ R1_ATTACK_WITH_TYPE_ADVANTAGE;
    R2_SWITCH_IF_LOW_HP_AND_ENEMY_ADVANTAGE;
    R3_FINISH_ENEMY_IF_LOW_HP;
    R4_NEUTRAL_PLAY_IF_NO_CLEAR_ADVANTAGE;
    R5_RISKY_PLAY_IF_BOTH_LOW;
    D1_COMPUTE_BEST_MOVE;
    R6_USE_SUPER_EFFECTIVE;
    R7_USE_NEUTRAL_BEST;
    R8_SWITCH_IF_ALL_RESISTED;
    R9_DEFEND_IF_VERY_LOW_HP_NO_KO;
    R10_FINISH_WITH_PRIORITY;
    R11_SWITCH_IF_SLOW_AND_WEAK;
    R12_ATTACK_IF_FASTER_AND_OK_HP;
    R13_STRONG_PRESSURE_IF_FASTER_SUPER_EFFECTIVE;
    R14_NO_GOOD_MOVES_WARNING;
    R15_NO_MOVES_INFO;
    R16_SAME_MAIN_TYPE_BATTLE;
    R17_EXPLAIN_TYPE_ADVANTAGE_WITH_NAMES ].
End KnowledgeBase.

(** ** data_loader.py *)

Abbreviation type_chart := (gmap string (gmap string float)).

(** [str.lower] on a string of ASCII characters: the letters A to Z go to
    lower case and every other byte stays.  On other strings the
    interpreter's [lower] does more, so the statements that depend on it are
    made for ASCII strings ([ascii_only]). *)
Definition lower_char (c : Ascii.ascii) : Ascii.ascii :=
  let n := Ascii.nat_of_ascii c in
  if bool_decide (65 ≤ n ≤ 90)%nat then Ascii.ascii_of_nat (n + 32) else c.

Fixpoint lower (s : string) : string :=
  match s with
  | EmptyString => EmptyString
  | String c s' => String (lower_char c) (lower s')
  end.

(** [chart.get(attacking, {}).get(dt, 1.0)] *)
Definition chart_get (chart : type_chart) (attacking dt : string) : float :=
  default 1%float (default ∅ (chart !! attacking) !! dt).

(** The [for dt in defending_types] loop, [total] being its accumulator. *)
Fixpoint effectiveness_loop (chart : type_chart) (attacking : string)
  (defending_types : list string) (total : float) : float :=
  match defending_types with
  | [] => total
  | dt :: rest =>
      let dt := lower dt in
      let mul := chart_get chart attacking dt in
      effectiveness_loop chart attacking rest (total * mul)%float
  end.

Definition effectiveness (attacking : string) (defending_types : list string)
  (chart : type_chart) : float :=
  let attacking := lower attacking in
  effectiveness_loop chart attacking defending_types 1%float.

(** The product of a list of floats, taken from 1.0 in list order. *)
Definition float_product (l : list float) : float :=
  foldl PrimFloat.mul 1%float l.

(** ** main.py and app_streamlit.py *)

Module Main.
Fixpoint best_loop (attacking_types defending_types : list string)
  (chart : type_chart) (best : float) : float :=
  match attacking_types with
  | [] => best
  | t :: rest =>
      let eff := effectiveness t defending_types chart in
      best_loop rest defending_types chart
        (if (best <? eff)%float then eff else best)
  end.

Definition has_type_advantage (attacking_types defending_types : list string)
  (chart : type_chart) : bool :=
  (1 <? best_loop attacking_types defending_types chart 1)%float.
End Main.

Module AppStreamlit.
Fixpoint best_loop (attacking_types defending_types : list string)
  (chart : type_chart) (best : float) : float :=
  match attacking_types with
  | [] => best
  | t :: rest =>
      let eff := effectiveness t defending_types chart in
      best_loop rest defending_types chart
        (if (best <? eff)%float then eff else best)
  end.

Definition has_type_advantage (attacking_types defending_types : list string)
  (chart : type_chart) : bool :=
  if bool_decide (attacking_types = []) || bool_decide (defending_types = [])
  then false
  else (1 <? best_loop attacking_types defending_types chart 1)%float.
End AppStreamlit.

(** *** Identifiers: [normalize_identifier] of app_streamlit.py; [ask_pokemon]
    and [ask_moves] of main.py chain the same calls. *)

(** The ASCII characters [str.strip()] removes: tab to carriage return, the
    four separators 0x1c to 0x1f, and the space. *)
Definition is_space (c : Ascii.ascii) : bool :=
  let n := Ascii.nat_of_ascii c in
  bool_decide (9 ≤ n ≤ 13)%nat || bool_decide (28 ≤ n ≤ 32)%nat.

Fixpoint lstrip (s : string) : string :=
  match s with
  | EmptyString => EmptyString
  | String c s' => if is_space c then lstrip s' else s
  end.

Fixpoint rstrip (s : string) : string :=
  match s with
  | EmptyString => EmptyString
  | String c s' =>
      match rstrip s' with
      | EmptyString => if is_space c then EmptyString else String c EmptyString
      | r => String c r
      end
  end.

(** [s.strip()] *)
Definition strip (s : string) : string := rstrip (lstrip s).

(** [s.replace(old, new)] for one-character [old] and [new] *)
Fixpoint replace_char (old new : Ascii.ascii) (s : string) : string :=
  match s with
  | EmptyString => EmptyString
  | String c s' =>
      String (if Ascii.eqb c old then new else c) (replace_char old new s')
  end.

(** [name.strip().lower().replace(" ", "-")] *)
Definition normalize_identifier (name : string) : string :=
  replace_char " "%char "-"%char (lower (strip name)).

(** ** Example stores and an interpreter instance *)

(** A stand-in for [str()]: exact on [None], booleans and numbers with an
    integer value printed as floats. *)
Definition show (v : value) : string :=
  match v with
  | VNone => "None"
  | VBool true => "True"
  | VBool false => "False"
  | VNum q => pretty (Qnum q) +:+ (if bool_decide (Qden q = 1%positive) then ".0"
                                   else "/" +:+ pretty (Zpos (Qden q)))
  | VNaN => "nan"
  | VStr s => s
  | VList _ => "[...]"
  | VDict _ => "{...}"
  end.

Definition upper_char (c : Ascii.ascii) : Ascii.ascii :=
  let n := Ascii.nat_of_ascii c in
  if bool_decide (97 ≤ n ≤ 122)%nat then Ascii.ascii_of_nat (n - 32) else c.

(** [str.capitalize] on ASCII text *)
Definition capitalize_ascii (s : string) : string :=
  match s with
  | EmptyString => EmptyString
  | String c s' => String (upper_char c) (lower s')
  end.

Definition shipped_rules : list Rule := rules show capitalize_ascii.

Definition move (nm ty : string) (power eff score : Q) : value :=
  VDict [("name", VStr nm); ("identifier", VStr nm); ("type", VStr ty);
         ("power", VNum power); ("eff", VNum eff); ("score", VNum score)].

(** The store built by [main()], keys in the order of its dict display. *)
Definition battle (mine theirs : string) (my_types enemy_types : list string)
  (my_hp enemy_hp : Q) (my_adv enemy_adv : bool) (moves : list value)
  (prio defensive faster slower : bool) : FactBase :=
  <["is_slower" := VBool slower]>
  (<["is_faster" := VBool faster]>
  (<["has_defensive_move" := VBool defensive]>
  (<["has_priority_move" := VBool prio]>
  (<["my_moves" := VList moves]>
  (<["enemy_advantage" := VBool enemy_adv]>
  (<["my_advantage" := VBool my_adv]>
  (<["enemy_hp_pct" := VNum enemy_hp]>
  (<["my_hp_pct" := VNum my_hp]>
  (<["enemy_types" := VList (VStr <$> enemy_types)]>
  (<["my_types" := VList (VStr <$> my_types)]>
  (<["enemy_pokemon" := VStr theirs]>
  (<["my_pokemon" := VStr mine]> ∅)))))))))))).

(** Four moves scoring 10, 15, 20 and 80, the last one at effectiveness 2.0. *)
Definition scenario3_moves : list value :=
  [ move "scratch" "normal" 40 0.25 10;
    move "ember" "fire" 25 0.5 15;
    move "cut" "normal" 20 1 20;
    move "wing-attack" "flying" 40 2 80 ].

Definition scenario3 : FactBase :=
  battle "charizard" "venusaur" ["fire"; "flying"] ["grass"; "poison"]
    80 60 true false scenario3_moves false false true false.

(** Own HP 80, enemy HP 60, type advantage, no moves supplied. *)
Definition scenario1 : FactBase :=
  battle "charizard" "venusaur" ["fire"; "flying"] ["grass"; "poison"]
    80 60 true false [] false false false false.

(** A store on which no shipped rule is eligible: middling HP on both
    sides, no advantage, one good move, and a best move set to [None]. *)
Definition quiet_store : FactBase :=
  <["best_move" := VNone]>
  (battle "pikachu" "squirtle" ["electric"] ["water"] 45 45 false false
     [move "tackle" "normal" 40 1 40] false false false false).

(** ** Predicates and notions used by the statements *)

(** What the history says about a state: the trace is the lines of the
    logged rules, [fired] holds exactly their names, and no name is logged
    twice. *)
Definition hist_inv (st : engine_state) (log : list Rule) : Prop :=
  st_trace st = trace_line <$> log ∧
  st_fired st = list_to_set (name <$> log) ∧
  NoDup (name <$> log).

(** Rules that never raise make both loops return. *)
Definition never_raises (rs : list Rule) : Prop :=
  ∀ r f, r ∈ rs → is_ok (when r f) = true ∧ is_ok (then_ r f) = true.

(** The keys [main()] sets before the run. *)
Definition input_keys : list string :=
  ["my_pokemon"; "enemy_pokemon"; "my_types"; "enemy_types"; "my_hp_pct";
   "enemy_hp_pct"; "my_advantage"; "enemy_advantage"; "my_moves";
   "has_priority_move"; "has_defensive_move"; "is_faster"; "is_slower"].

(** A move record whose score, 0.0 when the key is missing, is a number. *)
Definition has_score (m : value) (s : Q) : Prop := score_key m = Ok (VNum s).

Definition scored (m : value) : Prop := ∃ s, has_score m s.

(** The best move of a store, as D1 would write it. *)
Definition derived_best (f : FactBase) : value :=
  match compute_best_move f with Ok b => b | Raise _ => VNone end.

Definition with_best (f : FactBase) : FactBase :=
  <["best_move" := derived_best f]> f.

(** [g] is [f] up to the recommendations. *)
Definition same_but_recos (f g : FactBase) : Prop :=
  g = f ∨ ∃ v, g = <["recommendations" := v]> f.

(** The stores of a run from [f]: [f] itself until D1 fires, [f] with its
    best move afterwards, in both cases up to the recommendations. *)
Definition kb_inv (f : FactBase) (st : engine_state) : Prop :=
  ("D1_COMPUTE_BEST_MOVE" ∉ st_fired st) ∧ same_but_recos f (st_facts st) ∨
  "D1_COMPUTE_BEST_MOVE" ∈ st_fired st ∧ same_but_recos (with_best f) (st_facts st).

(** The rules declared before and after D1. *)
Definition pre_rules : list Rule :=
  [ R1_ATTACK_WITH_TYPE_ADVANTAGE; R2_SWITCH_IF_LOW_HP_AND_ENEMY_ADVANTAGE;
    R3_FINISH_ENEMY_IF_LOW_HP; R4_NEUTRAL_PLAY_IF_NO_CLEAR_ADVANTAGE;
    R5_RISKY_PLAY_IF_BOTH_LOW ].

Definition post_rules (str_of : value → string) (capitalize : string → string)
  : list Rule :=
  [ R6_USE_SUPER_EFFECTIVE str_of; R7_USE_NEUTRAL_BEST str_of;
    R8_SWITCH_IF_ALL_RESISTED; R9_DEFEND_IF_VERY_LOW_HP_NO_KO;
    R10_FINISH_WITH_PRIORITY; R11_SWITCH_IF_SLOW_AND_WEAK;
    R12_ATTACK_IF_FASTER_AND_OK_HP; R13_STRONG_PRESSURE_IF_FASTER_SUPER_EFFECTIVE;
    R14_NO_GOOD_MOVES_WARNING; R15_NO_MOVES_INFO;
    R16_SAME_MAIN_TYPE_BATTLE str_of;
    R17_EXPLAIN_TYPE_ADVANTAGE_WITH_NAMES capitalize ].

(** A move record as [ask_moves] and [build_moves] make it: the name as
    typed, its identifier, the type found for it, and three numbers. *)
Definition move_record (nm ident : string) (ty : value) (power eff score : Q)
  : value :=
  VDict [("name", VStr nm); ("identifier", VStr ident); ("type", ty);
         ("power", VNum power); ("eff", VNum eff); ("score", VNum score)].

Definition is_move (m : value) : Prop :=
  ∃ nm ident ty power eff score, m = move_record nm ident ty power eff score.

(** A store as [main()] builds it, possibly with the derived keys a run has
    written so far. *)
Definition wf_store (g : FactBase) : Prop :=
  (∃ q, g !! "my_hp_pct" = Some (VNum q)) ∧
  (∃ q, g !! "enemy_hp_pct" = Some (VNum q)) ∧
  (∃ ms, g !! "my_moves" = Some (VList ms) ∧ Forall is_move ms) ∧
  (g !! "best_move" = None ∨ ∃ b, g !! "best_move" = Some b ∧ is_move b) ∧
  (∃ ts, g !! "my_types" = Some (VList ts)) ∧
  (∃ ts, g !! "enemy_types" = Some (VList ts)) ∧
  (∃ s, g !! "my_pokemon" = Some (VStr s)) ∧
  (∃ s, g !! "enemy_pokemon" = Some (VStr s)) ∧
  (g !! "recommendations" = None ∨ ∃ l, g !! "recommendations" = Some (VList l)).

(** The store the rules other than D1 are tried on: the initial store, with
    its best move if D1 is eligible. *)
Definition settled (f : FactBase) : FactBase :=
  match when D1_COMPUTE_BEST_MOVE f with
  | Ok true => with_best f
  | _ => f
  end.

(** A recommendation as [add_reco] appends it. *)
Definition reco (text : string) (priority : Z) : value :=
  VDict [("text", VStr text); ("priority", VNum (inject_Z priority))].

(** The shipped rules give priorities from 40 (R15) to 97 (R11). *)
Definition is_reco (v : value) : Prop :=
  ∃ text priority, v = reco text priority ∧ (40 <= priority <= 97)%Z.

(** The recommendations of a store, as [main()] reads them:
    [facts.get("recommendations", [])]. *)
Definition recos_of (f : FactBase) : value :=
  fact_get f "recommendations" (VList []).

(** The recommendations grow by one at every firing but D1's. *)
Definition recos_inv (l0 : list value) (st : engine_state) : Prop :=
  ∃ new, recos_of (st_facts st) = VList (l0 ++ new) ∧ Forall is_reco new ∧
    size (st_fired st) =
      (length new + if decide ("D1_COMPUTE_BEST_MOVE" ∈ st_fired st) then 1 else 0)%nat.

(** A string of ASCII characters, on which [lower] and [is_space] are the
    interpreter's. *)
Fixpoint ascii_only (s : string) : bool :=
  match s with
  | EmptyString => true
  | String c s' => bool_decide (Ascii.nat_of_ascii c < 128)%nat && ascii_only s'
  end.

Fixpoint string_forall (p : Ascii.ascii → bool) (s : string) : bool :=
  match s with
  | EmptyString => true
  | String c s' => p c && string_forall p s'
  end.

Definition is_upper (c : Ascii.ascii) : bool :=
  bool_decide (65 ≤ Ascii.nat_of_ascii c ≤ 90)%nat.

(** The canonical character of an identifier: lower case, hyphen for space. *)
Definition norm_char (c : Ascii.ascii) : Ascii.ascii :=
  let c' := lower_char c in if Ascii.eqb c' " "%char then "-"%char else c'.

Fixpoint string_map (g : Ascii.ascii → Ascii.ascii) (s : string) : string :=
  match s with
  | EmptyString => EmptyString
  | String c s' => String (g c) (string_map g s')
  end.

(** A score as [ask_moves] computes it from [float(input())]: a number or
    a NaN. *)
Definition is_key (k : value) : Prop := k = VNaN ∨ ∃ q, k = VNum q.

Definition float_scored (m : value) : Prop :=
  ∃ k, score_key m = Ok k ∧ is_key k.

(** [key(m) > key(b)]: the test on which [max] replaces its best item [b]
    by a later item [m]. *)
Definition beats (m b : value) : result bool :=
  km ← score_key m; kb ← score_key b; py_compare OpGt km kb.

(** A move whose power was entered as [nan]: its score, effectiveness times
    power, is a NaN. *)
Definition nan_move (nm ty : string) (eff : Q) : value :=
  VDict [("name", VStr nm); ("identifier", VStr nm); ("type", VStr ty);
         ("power", VNaN); ("eff", VNum eff); ("score", VNaN)].

(** Scenario 3 with a first move of NaN score before the move scoring 80. *)
Definition nan_first_moves : list value :=
  [ nan_move "struggle" "normal" 1; move "wing-attack" "flying" 40 2 80 ].

Definition nan_first : FactBase :=
  battle "charizard" "venusaur" ["fire"; "flying"] ["grass"; "poison"]
    80 60 true false nan_first_moves false false true false.

(** Moves scoring 2, NaN and 3. *)
Definition nan_middle_moves : list value :=
  [ move "scratch" "normal" 2 1 2; nan_move "struggle" "normal" 1;
    move "cut" "normal" 3 1 3 ].

(** The console store of scenario 3 with the moves scoring 2, NaN and 3. *)
Definition nan_middle : FactBase :=
  battle "charizard" "venusaur" ["fire"; "flying"] ["grass"; "poison"]
    80 60 true false nan_middle_moves false false true false.

(** The texts R6, R7 and R8 recommend with, for a best move named [nm] of
    effectiveness [ef]. *)
Definition R6_text (str_of : value → string) (nm ef : value) : string :=
  "Tu mejor opción ofensiva es " +:+ fmt str_of nm +:+ " (efectividad x"
  +:+ fmt str_of ef +:+ ").".

Definition R7_text (str_of : value → string) (nm : value) : string :=
  "No tienes movimientos súper eficaces. Usa " +:+ fmt str_of nm
  +:+ " como mejor opción neutral.".

Definition R8_text : string :=
  "Tus movimientos son poco eficaces contra el rival. Plantéate cambiar de Pokémon.".

(** The recommendations appended so far in a run whose best move is the
    record [d], against the rules that fired: one with the priority of R6,
    R7, R8 or R14 is there only if that rule fired, and the recommendation
    of R6, R7 or R8 is there once the rule has fired. *)
Definition tier_recos (str_of : value → string) (d : list (string * value))
  (l0 : list value) (st : engine_state) : Prop :=
  ∃ new, recos_of (st_facts st) = VList (l0 ++ new) ∧
    (∀ text p, reco text p ∈ new →
       (p = 92%Z → "R6_USE_SUPER_EFFECTIVE" ∈ st_fired st) ∧
       (p = 75%Z → "R7_USE_NEUTRAL_BEST" ∈ st_fired st) ∧
       (p = 85%Z → "R8_SWITCH_IF_ALL_RESISTED" ∈ st_fired st) ∧
       (p = 60%Z → "R14_NO_GOOD_MOVES_WARNING" ∈ st_fired st)) ∧
    ("R6_USE_SUPER_EFFECTIVE" ∈ st_fired st →
     ∃ nm ef, assoc_get d "name" = Some nm ∧ assoc_get d "eff" = Some ef ∧
       reco (R6_text str_of nm ef) 92 ∈ new) ∧
    ("R7_USE_NEUTRAL_BEST" ∈ st_fired st →
     ∃ nm, assoc_get d "name" = Some nm ∧ reco (R7_text str_of nm) 75 ∈ new) ∧
    ("R8_SWITCH_IF_ALL_RESISTED" ∈ st_fired st → reco R8_text 85 ∈ new).

(** * Properties of the engine *)

Lemma bind_Ok {A B} (m : result A) (k : A → result B) (b : B) :
  m ≫= k = Ok b → ∃ a, m = Ok a ∧ k a = Ok b.
Proof. destruct m as [a|e]; [eauto | discriminate]. Qed.

(** The recorded history is an observer: erasing it gives the two loops back. *)
Lemma sweep_hist_erase rs st any log :
  sweep rs st any = (λ x, (x.1.1, x.1.2)) <$> sweep_hist rs st any log.
Proof.
  revert st any log. induction rs as [|r rs IH]; intros st any log; simpl; [done|].
  case_decide; [apply IH|].
  destruct (when r (st_facts st)) as [[]|e]; simpl; [|apply IH|done].
  destruct (then_ r (st_facts st)) as [f'|e]; simpl; [apply IH|done].
Qed.

Lemma loops_hist_erase n rs st log sw :
  loops n rs st = (λ x, x.1.1) <$> loops_hist n rs st log sw.
Proof.
  revert st log sw. induction n as [|n IH]; intros st log sw; simpl; [done|].
  rewrite (sweep_hist_erase rs st false log).
  destruct (sweep_hist rs st false log) as [[[st' any] log']|e]; simpl; [|done].
  destruct any; [apply IH | done].
Qed.

Lemma hist_inv_init f : hist_inv (init_state f) [].
Proof. repeat split; constructor. Qed.

Lemma hist_inv_fire r f' st log :
  name r ∉ st_fired st → hist_inv st log → hist_inv (fire r f' st) (log ++ [r]).
Proof.
  intros Hr (Ht & Hf & Hn). repeat split; simpl.
  - rewrite Ht, fmap_app. done.
  - rewrite Hf, fmap_app, list_to_set_app_L. simpl. set_solver.
  - rewrite fmap_app. apply NoDup_app. split; [done|]. split.
    + intros x Hx Hx'. apply list_elem_of_singleton in Hx'. subst x.
      apply Hr. rewrite Hf. by apply elem_of_list_to_set.
    + apply NoDup_singleton.
Qed.

Lemma sweep_hist_inv rs st any log st' any' log' :
  sweep_hist rs st any log = Ok (st', any', log') →
  hist_inv st log →
  hist_inv st' log' ∧ ∃ new, log' = log ++ new ∧ new ⊆ rs ∧
    any' = any || negb (bool_decide (new = [])).
Proof.
  revert st any log. induction rs as [|r rs IH]; intros st any log; simpl.
  - intros [= <- <- <-] Hi. split; [done|]. exists []. rewrite app_nil_r.
    repeat split; [set_solver | by rewrite orb_false_r].
  - case_decide as Hin.
    { intros H Hi. destruct (IH _ _ _ H Hi) as (? & new & ? & ? & ?).
      split; [done|]. exists new. repeat split; [done | set_solver | done]. }
    destruct (when r (st_facts st)) as [[]|e] eqn:Hw; simpl; [| |done].
    + destruct (then_ r (st_facts st)) as [f'|e] eqn:Ht; simpl; [|done].
      intros H Hi. apply (hist_inv_fire r f') in Hi; [|done].
      destruct (IH _ _ _ H Hi) as (? & new & -> & ? & ->).
      split; [done|]. exists (r :: new). rewrite <- app_assoc. simpl.
      repeat split; [set_solver | by rewrite orb_true_r].
    + intros H Hi. destruct (IH _ _ _ H Hi) as (? & new & ? & ? & ?).
      split; [done|]. exists new. repeat split; [done | set_solver | done].
Qed.

Lemma loops_hist_inv n rs st log sw st' log' sw' :
  loops_hist n rs st log sw = Ok (st', log', sw') →
  hist_inv st log →
  hist_inv st' log' ∧ ∃ new, log' = log ++ new ∧ new ⊆ rs.
Proof.
  revert st log sw. induction n as [|n IH]; intros st log sw; simpl.
  - intros [= <- <- <-] Hi. split; [done|]. exists []. rewrite app_nil_r.
    split; [done|set_solver].
  - intros H Hi. apply bind_Ok in H as ([[st1 any1] log1] & Hs & H).
    destruct (sweep_hist_inv _ _ _ _ _ _ _ Hs Hi) as (Hi1 & new1 & -> & Hsub1 & _).
    destruct any1.
    + destruct (IH _ _ _ H Hi1) as (? & new & -> & ?).
      split; [done|]. exists (new1 ++ new). rewrite app_assoc. split; [done|set_solver].
    + injection H as <- <- <-. split; [done|]. by exists new1.
Qed.

(** The sweeps performed: all fire a rule but possibly the last one, and a
    sweep that fires nothing is the last one. *)
Lemma loops_hist_flags n rs st log sw st' log' sw' :
  loops_hist n rs st log sw = Ok (st', log', sw') →
  sw' = sw ++ replicate n true ∨
  ∃ j, (j < n)%nat ∧ sw' = sw ++ replicate j true ++ [false].
Proof.
  revert st log sw. induction n as [|n IH]; intros st log sw; simpl.
  - intros [= <- <- <-]. left. by rewrite app_nil_r.
  - intros H. apply bind_Ok in H as ([[st1 any1] log1] & Hs & H).
    destruct any1.
    + destruct (IH _ _ _ H) as [-> | (j & Hj & ->)].
      * left. by rewrite <- app_assoc.
      * right. exists (S j). split; [lia|]. by rewrite <- app_assoc.
    + injection H as <- <- <-. right. exists 0%nat. split; [lia|done].
Qed.

Lemma sweep_hist_total rs st any log :
  never_raises rs → ∃ out, sweep_hist rs st any log = Ok out.
Proof.
  revert st any log. induction rs as [|r rs IH]; intros st any log Hrs; simpl; [eauto|].
  assert (never_raises rs) as Hrs' by (intros r' f' ?; apply Hrs; set_solver).
  case_decide; [by apply IH|].
  destruct (Hrs r (st_facts st) ltac:(set_solver)) as [Hw Ht].
  destruct (when r (st_facts st)) as [[]|e]; simpl; [| by apply IH | done].
  destruct (then_ r (st_facts st)) as [f'|e]; simpl; [by apply IH | done].
Qed.

Lemma loops_hist_total n rs st log sw :
  never_raises rs → ∃ out, loops_hist n rs st log sw = Ok out.
Proof.
  revert st log sw. induction n as [|n IH]; intros st log sw Hrs; simpl; [eauto|].
  destruct (sweep_hist_total rs st false log Hrs) as ([[st1 any1] log1] & ->). simpl.
  destruct any1; [by apply IH | eauto].
Qed.

(** [forward_chain] read off the run with its history. *)
Lemma forward_chain_run ls f rs n res :
  forward_chain ls f rs n = Ok res →
  ∃ st log sw, run_hist f rs n = Ok (st, log, sw) ∧
    res = {| facts := st_facts st; fired_rules := ls (st_fired st); trace := st_trace st |} ∧
    firing_log f rs n = log ∧ sweep_flags f rs n = sw.
Proof.
  unfold forward_chain, firing_log, sweep_flags, run_hist.
  rewrite (loops_hist_erase _ _ _ [] []).
  destruct (loops_hist _ _ _ _ _) as [[[st log] sw]|e]; simpl; [|done].
  intros [= <-]. by exists st, log, sw.
Qed.

Lemma run_forward_chain ls f rs n st log sw :
  run_hist f rs n = Ok (st, log, sw) →
  forward_chain ls f rs n =
    Ok {| facts := st_facts st; fired_rules := ls (st_fired st); trace := st_trace st |}.
Proof.
  unfold forward_chain, run_hist. rewrite (loops_hist_erase _ _ _ [] []).
  by intros ->.
Qed.

Lemma enum_perm_NoDup (ls : gset string → list string) (X : gset string) :
  (∀ X, ls X ≡ₚ elements X) → NoDup (ls X).
Proof. intros H. rewrite (H X). apply NoDup_elements. Qed.

Lemma enum_perm_names (ls : gset string → list string) (log : list Rule) :
  (∀ X, ls X ≡ₚ elements X) → NoDup (name <$> log) →
  ls (list_to_set (name <$> log)) ≡ₚ name <$> log.
Proof. intros H Hn. rewrite (H _). by apply elements_list_to_set. Qed.

(** A finished run: its state agrees with its history. *)
Lemma forward_chain_hist ls f rs n res :
  forward_chain ls f rs n = Ok res →
  ∃ st, res = {| facts := st_facts st; fired_rules := ls (st_fired st); trace := st_trace st |} ∧
    hist_inv st (firing_log f rs n) ∧ firing_log f rs n ⊆ rs.
Proof.
  intros H. apply forward_chain_run in H as (st & log & sw & Hrun & -> & Hlog & _).
  exists st. split; [done|]. rewrite Hlog.
  apply loops_hist_inv in Hrun as (Hi & new & Heq & Hsub); [|apply hist_inv_init].
  simpl in Heq. subst log. by split.
Qed.

(** C1 (as amended): [fired_rules] is [list(fired)], the enumeration of a
    set: it holds the names of the rules that fired, each once, as a
    permutation of the firing order; the trace is in firing order. *)
Theorem forward_chain_fired_rules_enumerates_fired
  (ls : gset string → list string) (f : FactBase) (rs : list Rule) (n : Z)
  (res : InferenceResult) :
  (∀ X, ls X ≡ₚ elements X) →
  forward_chain ls f rs n = Ok res →
  fired_rules res ≡ₚ name <$> firing_log f rs n ∧
  NoDup (fired_rules res) ∧
  trace res = trace_line <$> firing_log f rs n.
Proof.
  intros Hls H. apply forward_chain_hist in H as (st & -> & (Ht & Hf & Hn) & _). simpl.
  split_and!; [| by apply enum_perm_NoDup | done].
  rewrite Hf. by apply enum_perm_names.
Qed.

(** C2: with pairwise distinct rule names every rule fires at most once in a
    run, whatever the number of sweeps and whatever its condition does after
    it fired: its name is at most once among the fired rules and at most one
    entry of the firing log, hence one line of the trace, is its own. *)
Theorem each_rule_fires_at_most_once
  (ls : gset string → list string) (f : FactBase) (rs : list Rule) (n : Z)
  (res : InferenceResult) :
  (∀ X, ls X ≡ₚ elements X) →
  NoDup (name <$> rs) →
  forward_chain ls f rs n = Ok res →
  trace res = trace_line <$> firing_log f rs n ∧
  ∀ r, r ∈ rs →
    (count_occ String.string_dec (fired_rules res) (name r) ≤ 1)%nat ∧
    (count_occ String.string_dec (name <$> firing_log f rs n) (name r) ≤ 1)%nat ∧
    (∀ r', r' ∈ firing_log f rs n → name r' = name r → r' = r).
Proof.
  intros Hls Hrs H.
  apply forward_chain_hist in H as (st & -> & (Ht & Hf & Hn) & Hsub). simpl.
  split; [done|]. intros r Hr. split_and!.
  - apply NoDup_count_occ, NoDup_ListNoDup. by apply enum_perm_NoDup.
  - by apply NoDup_count_occ, NoDup_ListNoDup.
  - intros r' Hr' Heq. apply Hsub in Hr'.
    apply list_elem_of_lookup in Hr as [i Hi], Hr' as [j Hj].
    assert (i = j) as ->; [|congruence].
    eapply NoDup_lookup; [exact Hrs| |]; rewrite list_lookup_fmap.
    + by rewrite Hi.
    + rewrite Hj. simpl. by rewrite Heq.
Qed.

(** C3: [forward_chain] performs at most [max_loops] sweeps (20 when the
    argument is left out); every sweep but the last fires a rule, and a sweep
    that fires nothing ends the run; a run that uses up all [max_loops]
    sweeps returns its result like any other.  When no rule raises, the run
    returns. *)
Theorem forward_chain_sweeps_bounded
  (ls : gset string → list string) (f : FactBase) (rs : list Rule) (max_loops : Z) :
  (∀ st log sw, run_hist f rs max_loops = Ok (st, log, sw) →
     forward_chain ls f rs max_loops =
       Ok {| facts := st_facts st; fired_rules := ls (st_fired st); trace := st_trace st |} ∧
     (length sw ≤ Z.to_nat max_loops)%nat ∧
     (sw = replicate (Z.to_nat max_loops) true ∨
      ∃ j, (j < Z.to_nat max_loops)%nat ∧ sw = replicate j true ++ [false])) ∧
  (never_raises rs →
     ∃ res, forward_chain ls f rs max_loops = Ok res ∧
       (length (sweep_flags f rs max_loops) ≤ Z.to_nat max_loops)%nat) ∧
  (length (sweep_flags f rs 20) ≤ 20)%nat ∧
  forward_chain_default ls f rs = forward_chain ls f rs 20.
Proof.
  assert (∀ n st log sw, run_hist f rs n = Ok (st, log, sw) →
            (length sw ≤ Z.to_nat n)%nat ∧
            (sw = replicate (Z.to_nat n) true ∨
             ∃ j, (j < Z.to_nat n)%nat ∧ sw = replicate j true ++ [false])) as Hb.
  { intros n st log sw Hrun. unfold run_hist in Hrun.
    apply loops_hist_flags in Hrun. simpl in Hrun.
    destruct Hrun as [-> | (j & Hj & ->)].
    - split; [by rewrite length_replicate | by left].
    - split; [rewrite length_app, length_replicate; simpl; lia | right; eauto]. }
  split_and!.
  - intros st log sw Hrun.
    split; [exact (run_forward_chain ls _ _ _ _ _ _ Hrun) | exact (Hb _ _ _ _ Hrun)].
  - intros Hrs.
    destruct (loops_hist_total (Z.to_nat max_loops) rs (init_state f) [] [] Hrs)
      as ([[st log] sw] & Hrun).
    eexists. split; [exact (run_forward_chain ls _ _ _ _ _ _ Hrun)|].
    unfold sweep_flags. fold (run_hist f rs max_loops) in Hrun. rewrite Hrun.
    by apply (Hb _ _ _ _ Hrun).
  - unfold sweep_flags. destruct (run_hist f rs 20) as [[[st log] sw]|e] eqn:Hrun.
    + apply (Hb _ _ _ _ Hrun).
    + simpl. lia.
  - done.
Qed.

(** C10: in a result of [forward_chain] the trace has as many lines as there
    are fired rule names, all distinct, and its i-th line is
    ["[name] explanation"] of the i-th rule that fired; trace and fired set
    have the same size after every sweep. *)
Theorem trace_matches_fired_rules
  (ls : gset string → list string) (f : FactBase) (rs : list Rule) (n : Z)
  (res : InferenceResult) :
  (∀ X, ls X ≡ₚ elements X) →
  forward_chain ls f rs n = Ok res →
  length (trace res) = length (fired_rules res) ∧
  NoDup (fired_rules res) ∧
  length (trace res) = length (firing_log f rs n) ∧
  (∀ i r, firing_log f rs n !! i = Some r →
     trace res !! i = Some ("[" +:+ name r +:+ "] " +:+ explain r)) ∧
  (∀ k st, loops k rs (init_state f) = Ok st →
     length (st_trace st) = size (st_fired st)).
Proof.
  intros Hls H.
  apply forward_chain_hist in H as (st & -> & (Ht & Hf & Hn) & _). simpl.
  split_and!.
  - rewrite (Hls _), Ht, Hf, length_fmap.
    rewrite (elements_list_to_set _ Hn). by rewrite length_fmap.
  - by apply enum_perm_NoDup.
  - by rewrite Ht, length_fmap.
  - intros i r Hi. rewrite Ht, list_lookup_fmap, Hi. done.
  - intros k st' Hk. rewrite (loops_hist_erase _ _ _ [] []) in Hk.
    destruct (loops_hist k rs (init_state f) [] []) as [[[st2 log2] sw2]|e] eqn:Hrun;
      [|done].
    injection Hk as <-. simpl.
    apply loops_hist_inv in Hrun as ((Ht2 & Hf2 & Hn2) & _); [|apply hist_inv_init].
    rewrite Ht2, Hf2, length_fmap. rewrite size_list_to_set by done.
    by rewrite length_fmap.
Qed.

Lemma elements_enumerates : ∀ X : gset string, elements X ≡ₚ elements X.
Proof. done. Qed.

Lemma forward_chain_fired_rules_enumerates_fired_witness :
  ∃ res, forward_chain elements scenario3 shipped_rules 20 = Ok res ∧
    fired_rules res ≡ₚ name <$> firing_log scenario3 shipped_rules 20 ∧
    NoDup (fired_rules res) ∧
    trace res = trace_line <$> firing_log scenario3 shipped_rules 20.
Proof.
  eexists. split; [vm_compute; reflexivity|].
  apply (forward_chain_fired_rules_enumerates_fired elements scenario3 shipped_rules 20);
    [exact elements_enumerates | vm_compute; reflexivity].
Defined.

(** C1 as stated fails: in the run of the shipped rules on scenario 3 the
    rules fire in the order R1, D1, R6, R12, R13, R17, and the enumeration of
    the fired set lists them otherwise.  No enumeration of sets can do better
    on every input: two rules that both fire give the same set whichever is
    declared first. *)
Lemma fired_rules_not_in_firing_order :
  (∃ res, forward_chain elements scenario3 shipped_rules 20 = Ok res ∧
     name <$> firing_log scenario3 shipped_rules 20 =
       ["R1_ATTACK_WITH_TYPE_ADVANTAGE"; "D1_COMPUTE_BEST_MOVE";
        "R6_USE_SUPER_EFFECTIVE"; "R12_ATTACK_IF_FASTER_AND_OK_HP";
        "R13_STRONG_PRESSURE_IF_FASTER_SUPER_EFFECTIVE";
        "R17_EXPLAIN_TYPE_ADVANTAGE_WITH_NAMES"] ∧
     fired_rules res =
       ["R1_ATTACK_WITH_TYPE_ADVANTAGE"; "R17_EXPLAIN_TYPE_ADVANTAGE_WITH_NAMES";
        "R13_STRONG_PRESSURE_IF_FASTER_SUPER_EFFECTIVE";
        "R12_ATTACK_IF_FASTER_AND_OK_HP"; "R6_USE_SUPER_EFFECTIVE";
        "D1_COMPUTE_BEST_MOVE"]) ∧
  ¬ ∃ ls : gset string → list string,
      ∀ f rs n res, forward_chain ls f rs n = Ok res →
        fired_rules res = name <$> firing_log f rs n.
Proof.
  split; [eexists; split_and!; vm_compute; reflexivity|].
  intros [ls H].
  pose (a := {| name := "a"; when := λ _, Ok true; then_ := λ g, Ok g; explain := "" |}).
  pose (b := {| name := "b"; when := λ _, Ok true; then_ := λ g, Ok g; explain := "" |}).
  eassert (forward_chain ls ∅ [a; b] 20 = Ok _) as Hab by (vm_compute; reflexivity).
  eassert (forward_chain ls ∅ [b; a] 20 = Ok _) as Hba by (vm_compute; reflexivity).
  apply H in Hab, Hba. vm_compute in Hab, Hba.
  assert (({["b"]} ∪ ({["a"]} ∪ ∅) : gset string) = {["a"]} ∪ ({["b"]} ∪ ∅)) as Heq
    by set_solver.
  vm_compute in Heq. congruence.
Qed.

Lemma each_rule_fires_at_most_once_witness :
  ∃ res, forward_chain elements scenario3 shipped_rules 20 = Ok res ∧
    trace res = trace_line <$> firing_log scenario3 shipped_rules 20 ∧
    ∀ r, r ∈ shipped_rules →
      (count_occ String.string_dec (fired_rules res) (name r) ≤ 1)%nat ∧
      (count_occ String.string_dec
         (name <$> firing_log scenario3 shipped_rules 20) (name r) ≤ 1)%nat ∧
      (∀ r', r' ∈ firing_log scenario3 shipped_rules 20 → name r' = name r → r' = r).
Proof.
  eexists. split; [vm_compute; reflexivity|].
  apply (each_rule_fires_at_most_once elements scenario3 shipped_rules 20);
    [exact elements_enumerates
    | apply (bool_decide_unpack _); vm_compute; exact I
    | vm_compute; reflexivity].
Defined.

Lemma trace_matches_fired_rules_witness :
  ∃ res, forward_chain elements scenario3 shipped_rules 20 = Ok res ∧
    length (trace res) = length (fired_rules res) ∧
    NoDup (fired_rules res) ∧
    length (trace res) = length (firing_log scenario3 shipped_rules 20) ∧
    (∀ i r, firing_log scenario3 shipped_rules 20 !! i = Some r →
       trace res !! i = Some ("[" +:+ name r +:+ "] " +:+ explain r)) ∧
    (∀ k st, loops k shipped_rules (init_state scenario3) = Ok st →
       length (st_trace st) = size (st_fired st)).
Proof.
  eexists. split; [vm_compute; reflexivity|].
  apply (trace_matches_fired_rules elements scenario3 shipped_rules 20);
    [exact elements_enumerates | vm_compute; reflexivity].
Defined.

(** * Properties of the loader and of the type-advantage test *)

Lemma effectiveness_loop_foldl chart attacking dts total :
  effectiveness_loop chart attacking dts total =
  foldl PrimFloat.mul total ((λ dt, chart_get chart attacking (lower dt)) <$> dts).
Proof.
  revert total. induction dts as [|dt dts IH]; intros total; simpl; [done|].
  apply IH.
Qed.

Lemma fmap_lower_fixed {A} (g : string → A) (dts : list string) :
  Forall (λ dt, lower dt = dt) dts → (λ dt, g (lower dt)) <$> dts = g <$> dts.
Proof.
  induction 1 as [|dt dts Hdt _ IH]; [done|]. rewrite !fmap_cons. by rewrite Hdt, IH.
Qed.

(** C8 (as amended): on type names of ASCII characters [effectiveness]
    returns the product, from 1.0 and in list order, of the chart's
    multipliers for the lowercased attacking type against each lowercased
    defending type, 1.0 standing for a pair the chart lacks; for names that
    are already lowercase these are the multipliers of the pairs
    themselves. *)
Theorem effectiveness_is_product_of_lowercased_pairs
  (attacking : string) (defending_types : list string) (chart : type_chart) :
  ascii_only attacking = true →
  Forall (λ dt, ascii_only dt = true) defending_types →
  effectiveness attacking defending_types chart =
    float_product
      ((λ dt, default 1%float (default ∅ (chart !! lower attacking) !! lower dt))
         <$> defending_types) ∧
  (lower attacking = attacking →
   Forall (λ dt, lower dt = dt) defending_types →
   effectiveness attacking defending_types chart =
     float_product
       ((λ dt, default 1%float (default ∅ (chart !! attacking) !! dt))
          <$> defending_types)).
Proof.
  intros _ _. unfold effectiveness, float_product. split.
  - apply effectiveness_loop_foldl.
  - intros Ha Hd. rewrite effectiveness_loop_foldl, Ha.
    by rewrite (fmap_lower_fixed (chart_get chart attacking)).
Qed.

Lemma effectiveness_is_product_of_lowercased_pairs_witness :
  ascii_only "Fire" = true ∧
  Forall (λ dt, ascii_only dt = true) ["Grass"; "WATER"; "rock"] ∧
  effectiveness "Fire" ["Grass"; "WATER"; "rock"]
    {[ "fire" := {[ "grass" := 2%float; "water" := 0.5%float ]} ]} =
    float_product [2%float; 0.5%float; 1%float].
Proof.
  assert (Forall (λ dt, ascii_only dt = true) ["Grass"; "WATER"; "rock"]) as Hd
    by (repeat constructor).
  split; [reflexivity|]. split; [exact Hd|].
  rewrite (proj1 (effectiveness_is_product_of_lowercased_pairs
                    "Fire" ["Grass"; "WATER"; "rock"]
                    {[ "fire" := {[ "grass" := 2%float; "water" := 0.5%float ]} ]}
                    eq_refl Hd)).
  vm_compute. reflexivity.
Defined.

(** C8 as stated fails where a name is not lowercase: the pair (Fire, Grass)
    of the first chart is never looked up, and the pair (FIRE, GRASS), absent
    from the second chart, does not count as 1.0. *)
Lemma effectiveness_ignores_case_of_arguments :
  let chart1 : type_chart := {[ "Fire" := {[ "Grass" := 2%float ]} ]} in
  let chart2 : type_chart := {[ "fire" := {[ "grass" := 2%float ]} ]} in
  (chart_get chart1 "Fire" "Grass" = 2%float ∧
   effectiveness "Fire" ["Grass"] chart1 = 1%float ∧
   effectiveness "Fire" ["Grass"] chart1 ≠
     float_product (chart_get chart1 "Fire" <$> ["Grass"])) ∧
  (chart_get chart2 "FIRE" "GRASS" = 1%float ∧
   effectiveness "FIRE" ["GRASS"] chart2 = 2%float ∧
   effectiveness "FIRE" ["GRASS"] chart2 ≠
     float_product (chart_get chart2 "FIRE" <$> ["GRASS"])).
Proof.
  cbv zeta. split_and!; try (vm_compute; reflexivity);
    intros H; apply (f_equal (PrimFloat.ltb 1%float)) in H; vm_compute in H;
    discriminate.
Qed.

Lemma best_loop_same attacking_types defending_types chart best :
  Main.best_loop attacking_types defending_types chart best =
  AppStreamlit.best_loop attacking_types defending_types chart best.
Proof.
  revert best. induction attacking_types as [|t ts IH]; intros best; simpl; [done|].
  apply IH.
Qed.

Lemma best_loop_no_defender attacking_types chart :
  Main.best_loop attacking_types [] chart 1%float = 1%float.
Proof.
  induction attacking_types as [|t ts IH]; simpl; [done|].
  unfold effectiveness. simpl. exact IH.
Qed.

(** C9: the two [has_type_advantage] functions agree on all arguments; the
    guard of the Streamlit one answers [False] exactly where the loop of the
    console one ends with [best] still 1.0. *)
Theorem has_type_advantage_versions_agree
  (attacking_types defending_types : list string) (chart : type_chart) :
  Main.has_type_advantage attacking_types defending_types chart =
    AppStreamlit.has_type_advantage attacking_types defending_types chart ∧
  (attacking_types = [] ∨ defending_types = [] →
   Main.has_type_advantage attacking_types defending_types chart = false).
Proof.
  assert (attacking_types = [] ∨ defending_types = [] →
          Main.has_type_advantage attacking_types defending_types chart = false) as H0.
  { unfold Main.has_type_advantage. intros [-> | ->]; [done|].
    by rewrite best_loop_no_defender. }
  split; [|done].
  unfold AppStreamlit.has_type_advantage.
  destruct (bool_decide_reflect (attacking_types = [])) as [Ha|Ha]; simpl.
  { apply H0. by left. }
  destruct (bool_decide_reflect (defending_types = [])) as [Hd|Hd]; simpl.
  { apply H0. by right. }
  unfold Main.has_type_advantage. by rewrite best_loop_same.
Qed.

(** * Invariants of a run *)

Lemma sweep_app rs1 rs2 st any :
  sweep (rs1 ++ rs2) st any =
  sweep rs1 st any ≫= λ out, sweep rs2 out.1 out.2.
Proof.
  revert st any. induction rs1 as [|r rs1 IH]; intros st any; simpl; [done|].
  case_decide; [apply IH|].
  destruct (when r (st_facts st)) as [[]|e]; simpl; [|apply IH|done].
  destruct (then_ r (st_facts st)) as [f'|e]; simpl; [apply IH|done].
Qed.

(** A property of states kept by every firing is kept by a sweep; a rule of
    the list has fired by the end of the sweep unless its condition was false
    when its turn came, and a rule fires only on a true condition. *)
Lemma sweep_inv (I : engine_state → Prop) rs st any st' any' :
  (∀ r st0 g', r ∈ rs → I st0 → name r ∉ st_fired st0 →
     when r (st_facts st0) = Ok true → then_ r (st_facts st0) = Ok g' →
     I (fire r g' st0)) →
  I st → sweep rs st any = Ok (st', any') →
  I st' ∧ st_fired st ⊆ st_fired st' ∧
  (∃ new, st_trace st' = st_trace st ++ new) ∧
  (∀ r, r ∈ rs → name r ∈ st_fired st' ∨
     ∃ st0, I st0 ∧ when r (st_facts st0) = Ok false) ∧
  (∀ x, x ∈ st_fired st' → x ∈ st_fired st ∨
     ∃ r st0, r ∈ rs ∧ name r = x ∧ I st0 ∧ when r (st_facts st0) = Ok true).
Proof.
  revert st any. induction rs as [|r rs IH]; intros st any Hstep Hst; simpl.
  - intros [= <- <-]. split_and!; [done | done | by exists []; rewrite app_nil_r | | by left].
    intros r Hr. by apply elem_of_nil in Hr.
  - assert (∀ r0 st0 g', r0 ∈ rs → I st0 → name r0 ∉ st_fired st0 →
              when r0 (st_facts st0) = Ok true → then_ r0 (st_facts st0) = Ok g' →
              I (fire r0 g' st0)) as Hstep'.
    { intros r0 st0 g' Hr0. apply Hstep. set_solver. }
    case_decide as Hin.
    { intros H. destruct (IH _ _ Hstep' Hst H) as (HI & Hsub & Htr & Hall & Hfired).
      split_and!; [done | done | done | |].
      - intros r0 [->|Hr0]%elem_of_cons; [left; set_solver | by apply Hall].
      - intros x Hx. destruct (Hfired x Hx) as [Hl|(r0 & st0 & Hr0 & Hrest)]; [by left|].
        right. exists r0, st0. split; [set_solver|done]. }
    destruct (when r (st_facts st)) as [[]|e] eqn:Hw; simpl; [| |done].
    + destruct (then_ r (st_facts st)) as [g'|e] eqn:Ht; simpl; [|done].
      intros H. pose proof (Hstep r st g' ltac:(set_solver) Hst Hin Hw Ht) as Hst1.
      destruct (IH _ _ Hstep' Hst1 H) as (HI & Hsub & [new Htr] & Hall & Hfired).
      simpl in Hsub, Htr.
      split_and!; [done | set_solver | | |].
      * exists (trace_line r :: new). rewrite Htr, <- app_assoc. done.
      * intros r0 [->|Hr0]%elem_of_cons; [left; set_solver | by apply Hall].
      * intros x Hx. destruct (Hfired x Hx) as [Hx'|(r0 & st0 & Hr0 & Hrest)].
        -- simpl in Hx'. apply elem_of_union in Hx' as [Hx'|Hx']; [|by left].
           apply elem_of_singleton in Hx'. right. exists r, st.
           split_and!; [set_solver | done | done | done].
        -- right. exists r0, st0. split; [set_solver|done].
    + intros H. destruct (IH _ _ Hstep' Hst H) as (HI & Hsub & Htr & Hall & Hfired).
      split_and!; [done | done | done | |].
      * intros r0 [->|Hr0]%elem_of_cons; [right; by exists st | by apply Hall].
      * intros x Hx. destruct (Hfired x Hx) as [Hl|(r0 & st0 & Hr0 & Hrest)]; [by left|].
        right. exists r0, st0. split; [set_solver|done].
Qed.

Lemma loops_inv (I : engine_state → Prop) n rs st st' :
  (∀ r st0 g', r ∈ rs → I st0 → name r ∉ st_fired st0 →
     when r (st_facts st0) = Ok true → then_ r (st_facts st0) = Ok g' →
     I (fire r g' st0)) →
  I st → loops n rs st = Ok st' →
  I st' ∧ st_fired st ⊆ st_fired st' ∧
  (∀ x, x ∈ st_fired st' → x ∈ st_fired st ∨
     ∃ r st0, r ∈ rs ∧ name r = x ∧ I st0 ∧ when r (st_facts st0) = Ok true).
Proof.
  intros Hstep. revert st. induction n as [|n IH]; intros st Hst; simpl.
  - intros [= <-]. split_and!; [done | done | by left].
  - intros H. apply bind_Ok in H as ([st1 any1] & Hs & H).
    destruct (sweep_inv I _ _ _ _ _ Hstep Hst Hs) as (HI1 & Hsub1 & _ & _ & Hf1).
    destruct any1.
    + destruct (IH _ HI1 H) as (HI & Hsub & Hf).
      split_and!; [done | set_solver |].
      intros x Hx. destruct (Hf x Hx) as [Hx1|Hx1]; [by apply Hf1 | by right].
    + injection H as <-. done.
Qed.

(** With at least one sweep to perform, the run starts with a full sweep
    and its fired set only grows afterwards. *)
Lemma loops_first_sweep n rs st st' :
  loops (S n) rs st = Ok st' →
  ∃ st1 any1, sweep rs st false = Ok (st1, any1) ∧ st_fired st1 ⊆ st_fired st' ∧
    loops (if any1 : bool then n else 0) rs st1 = Ok st'.
Proof.
  simpl. intros H. apply bind_Ok in H as ([st1 any1] & Hs & H).
  exists st1, any1. split; [done|]. destruct any1.
  - split; [|done].
    by destruct (loops_inv (λ _, True) _ _ _ _ ltac:(done) I H) as (_ & ? & _).
  - injection H as <-. done.
Qed.

(** * Properties of the knowledge base *)

Ltac unfold_rules :=
  unfold R1_ATTACK_WITH_TYPE_ADVANTAGE, R2_SWITCH_IF_LOW_HP_AND_ENEMY_ADVANTAGE,
    R3_FINISH_ENEMY_IF_LOW_HP, R4_NEUTRAL_PLAY_IF_NO_CLEAR_ADVANTAGE,
    R5_RISKY_PLAY_IF_BOTH_LOW, D1_COMPUTE_BEST_MOVE, R6_USE_SUPER_EFFECTIVE,
    R7_USE_NEUTRAL_BEST, R8_SWITCH_IF_ALL_RESISTED, R9_DEFEND_IF_VERY_LOW_HP_NO_KO,
    R10_FINISH_WITH_PRIORITY, R11_SWITCH_IF_SLOW_AND_WEAK,
    R12_ATTACK_IF_FASTER_AND_OK_HP, R13_STRONG_PRESSURE_IF_FASTER_SUPER_EFFECTIVE,
    R14_NO_GOOD_MOVES_WARNING, R15_NO_MOVES_INFO, R16_SAME_MAIN_TYPE_BATTLE,
    R17_EXPLAIN_TYPE_ADVANTAGE_WITH_NAMES in *;
  cbn [name when then_ explain] in *.

Ltac unfold_reads :=
  unfold fact_cmp, fact_between, fact_nonempty, fact_empty, fact_truthy,
    best_move_known, best_eff_cmp, best_move_field, same_main_type,
    compute_best_move, fact_getitem, fact_get in *.

(** Splits [r ∈ rules] into its eighteen cases. *)
Ltac each_rule H :=
  unfold rules in H;
  repeat (apply elem_of_cons in H as [->|H]);
  [.. | by apply elem_of_nil in H].

Lemma add_reco_spec f text priority f' :
  add_reco f text priority = Ok f' →
  ∃ recos, f' = <["recommendations" := VList recos]> f.
Proof.
  unfold add_reco, fact_getitem.
  destruct (f !! "recommendations") as [v|] eqn:Hv.
  - rewrite Hv. simpl. destruct v; try discriminate. intros [= <-]. eauto.
  - rewrite lookup_insert_eq. simpl. intros [= <-]. rewrite insert_insert_eq. eauto.
Qed.

Lemma add_reco_appends f text priority f' :
  add_reco f text priority = Ok f' →
  ∃ l, recos_of f = VList l ∧
       f' = <["recommendations" := VList (l ++ [reco text priority])]> f.
Proof.
  unfold add_reco, fact_getitem, recos_of, fact_get.
  destruct (f !! "recommendations") as [v|] eqn:Hv.
  - rewrite Hv. simpl. destruct v; try discriminate. intros [= <-]. eauto.
  - rewrite lookup_insert_eq. simpl. intros [= <-]. rewrite insert_insert_eq.
    by exists [].
Qed.

Lemma recos_of_insert_recos g v :
  recos_of (<["recommendations" := v]> g) = v.
Proof. unfold recos_of, fact_get. by rewrite lookup_insert_eq. Qed.

Lemma recos_of_insert_best g b :
  recos_of (<["best_move" := b]> g) = recos_of g.
Proof. unfold recos_of, fact_get. by rewrite lookup_insert_ne. Qed.

Lemma compute_best_move_ignores_recommendations f v :
  compute_best_move (<["recommendations" := v]> f) = compute_best_move f.
Proof. unfold_reads. by rewrite lookup_insert_ne. Qed.

(** No condition of the shipped rules reads the recommendations. *)
Lemma when_ignores_recommendations str_of capitalize r f v :
  r ∈ rules str_of capitalize →
  when r (<["recommendations" := v]> f) = when r f.
Proof.
  intros Hr. each_rule Hr; unfold_rules; unfold_reads;
    rewrite ?lookup_insert_ne by done; done.
Qed.

(** What an action of the shipped rules writes: every rule but D1 appends to
    the recommendations, D1 sets the best move. *)
Lemma rule_then_spec str_of capitalize r f f' :
  r ∈ rules str_of capitalize →
  then_ r f = Ok f' →
  (name r ≠ "D1_COMPUTE_BEST_MOVE" ∧
   ∃ recos, f' = <["recommendations" := VList recos]> f) ∨
  (name r = "D1_COMPUTE_BEST_MOVE" ∧
   ∃ b, compute_best_move f = Ok b ∧ f' = <["best_move" := b]> f).
Proof.
  intros Hr H. each_rule Hr; unfold_rules;
    repeat match type of H with
           | _ ≫= _ = Ok _ => apply bind_Ok in H as (? & ? & H)
           end;
    first [ left; split; [done | by eapply add_reco_spec]
          | right; split; [done|]; injection H as <-; eauto ].
Qed.

(** C7: the action of a shipped rule leaves every input key as it was; the
    only keys it writes are ["best_move"] and ["recommendations"].  (An
    action that raises has written nothing: every lookup and every text is
    evaluated before the first write.) *)
Theorem rule_actions_write_only_derived_keys
  (str_of : value → string) (capitalize : string → string)
  (r : Rule) (f f' : FactBase) :
  r ∈ rules str_of capitalize →
  then_ r f = Ok f' →
  (∀ k, k ∈ input_keys → f' !! k = f !! k) ∧
  (∀ k, k ≠ "best_move" → k ≠ "recommendations" → f' !! k = f !! k) ∧
  dom f' ⊆ dom f ∪ {[ "best_move"; "recommendations" ]}.
Proof.
  intros Hr H.
  assert (∀ k, k ≠ "best_move" → k ≠ "recommendations" → f' !! k = f !! k) as Hframe.
  { intros k Hb Hc.
    destruct (rule_then_spec _ _ _ _ _ Hr H) as [(_ & l & ->)|(_ & b & _ & ->)];
      by rewrite lookup_insert_ne. }
  split_and!; [|done|].
  - intros k Hk. apply Hframe; intros ->; revert Hk; unfold input_keys;
      rewrite !elem_of_cons, elem_of_nil; naive_solver.
  - destruct (rule_then_spec _ _ _ _ _ Hr H) as [(_ & l & ->)|(_ & b & _ & ->)];
      rewrite dom_insert; set_solver.
Qed.

Lemma rule_actions_write_only_derived_keys_witness :
  let f' := <["best_move" := move "wing-attack" "flying" 40 2 80]> scenario3 in
  then_ D1_COMPUTE_BEST_MOVE scenario3 = Ok f' ∧
  (∀ k, k ∈ input_keys → f' !! k = scenario3 !! k) ∧
  (∀ k, k ≠ "best_move" → k ≠ "recommendations" → f' !! k = scenario3 !! k) ∧
  dom f' ⊆ dom scenario3 ∪ {[ "best_move"; "recommendations" ]}.
Proof.
  intros f'.
  assert (then_ D1_COMPUTE_BEST_MOVE scenario3 = Ok f') as H
    by (vm_compute; reflexivity).
  split; [exact H|].
  apply (rule_actions_write_only_derived_keys show capitalize_ascii
           D1_COMPUTE_BEST_MOVE scenario3 f');
    [unfold rules; do 5 apply list_elem_of_further; apply list_elem_of_here
    | exact H].
Defined.

(** ** The best move *)

Lemma py_compare_num op a b :
  py_compare op (VNum a) (VNum b) = Ok (cmp_holds op (a ?= b)%Q).
Proof. done. Qed.

Lemma cmp_gt_true a b : cmp_holds OpGt (a ?= b)%Q = true ↔ (b < a)%Q.
Proof.
  rewrite Qlt_alt, <- (Qcompare_antisym a b).
  destruct (a ?= b)%Q; simpl; split; congruence.
Qed.

Lemma cmp_gt_false a b : cmp_holds OpGt (a ?= b)%Q = false ↔ (a <= b)%Q.
Proof.
  rewrite Qle_alt. destruct (a ?= b)%Q; simpl; split; congruence.
Qed.

Lemma cmp_ge a b : cmp_holds OpGe (a ?= b)%Q = true ↔ (b <= a)%Q.
Proof.
  rewrite Qle_alt, <- (Qcompare_antisym a b).
  destruct (a ?= b)%Q; simpl; split; congruence.
Qed.

Lemma cmp_le a b : cmp_holds OpLe (a ?= b)%Q = true ↔ (a <= b)%Q.
Proof.
  rewrite Qle_alt. destruct (a ?= b)%Q; simpl; split; congruence.
Qed.

Lemma cmp_lt a b : cmp_holds OpLt (a ?= b)%Q = true ↔ (a < b)%Q.
Proof.
  rewrite Qlt_alt. destruct (a ?= b)%Q; simpl; split; congruence.
Qed.

Lemma max_loop_cons items x sx best sb :
  has_score x sx →
  max_loop score_key (x :: items) best (VNum sb) =
  if cmp_holds OpGt (sx ?= sb)%Q then max_loop score_key items x (VNum sx)
  else max_loop score_key items best (VNum sb).
Proof. unfold has_score. intros H. simpl. by rewrite H. Qed.

Lemma max_loop_spec items best sb :
  has_score best sb → Forall scored items →
  ∃ b s', max_loop score_key items best (VNum sb) = Ok b ∧
    b ∈ best :: items ∧ has_score b s' ∧ (sb <= s')%Q ∧
    ∀ m s, m ∈ items → has_score m s → (s <= s')%Q.
Proof.
  intros Hbest Hitems. revert best sb Hbest.
  induction Hitems as [|x items [sx Hx] _ IH]; intros best sb Hbest.
  - exists best, sb. split_and!; [done | set_solver | done | apply Qle_refl |].
    intros m s Hm. by apply elem_of_nil in Hm.
  - rewrite (max_loop_cons _ _ _ _ _ Hx). unfold has_score in Hx.
    destruct (cmp_holds OpGt (sx ?= sb)%Q) eqn:Hc.
    + apply cmp_gt_true in Hc.
      destruct (IH x sx Hx) as (b & s' & -> & Hb & Hs & Hle & Hall).
      exists b, s'. split_and!; [done | set_solver | done | |].
      * eapply Qle_trans; [apply Qlt_le_weak, Hc | done].
      * intros m s [->|Hm]%elem_of_cons Hms; [|by eapply Hall].
        unfold has_score in Hms. rewrite Hx in Hms. by injection Hms as <-.
    + apply cmp_gt_false in Hc.
      destruct (IH best sb Hbest) as (b & s' & -> & Hb & Hs & Hle & Hall).
      exists b, s'. split_and!; [done | set_solver | done | done |].
      intros m s [->|Hm]%elem_of_cons Hms; [|by eapply Hall].
      unfold has_score in Hms. rewrite Hx in Hms. injection Hms as <-.
      by eapply Qle_trans.
Qed.

(** On a non-empty list of scored moves [compute_best_move] returns one of
    them, and none has a greater score. *)
Lemma compute_best_move_spec f ms :
  f !! "my_moves" = Some (VList ms) → ms ≠ [] → Forall scored ms →
  ∃ b sb, compute_best_move f = Ok b ∧ b ∈ ms ∧ has_score b sb ∧
    ∀ m s, m ∈ ms → has_score m s → (s <= sb)%Q.
Proof.
  intros Hf Hne Hms. unfold compute_best_move, fact_get. rewrite Hf.
  destruct ms as [|m0 ms]; [done|].
  apply Forall_cons in Hms as [[s0 Hm0] Hms].
  change (if negb (truthy (default (VList []) (Some (VList (m0 :: ms)))))
          then Ok VNone
          else py_max score_key (default (VList []) (Some (VList (m0 :: ms)))))
    with (score_key m0 ≫= λ kx, max_loop score_key ms m0 kx).
  unfold has_score in Hm0. rewrite Hm0. cbn [mbind result_bind].
  destruct (max_loop_spec ms m0 s0 Hm0 Hms) as (b & s' & -> & Hb & Hs & Hle & Hall).
  exists b, s'. split_and!; [done | done | done |].
  intros m s [->|Hm]%elem_of_cons Hsm; [|by eapply Hall].
  unfold has_score in Hsm. rewrite Hm0 in Hsm. by injection Hsm as <-.
Qed.

Lemma scored_float_scored m : scored m → float_scored m.
Proof. intros [s Hs]. exists (VNum s). split; [done|]. right. eauto. Qed.

Lemma py_gt_keys kx kb :
  is_key kx → is_key kb →
  ∃ b, py_compare OpGt kx kb = Ok b ∧
    (b = true → ∃ x y, kx = VNum x ∧ kb = VNum y ∧ (y < x)%Q) ∧
    (b = false → ∀ x y, kx = VNum x → kb = VNum y → (x <= y)%Q).
Proof.
  intros [->|[x ->]] [->|[y ->]];
    try (exists false; split; [reflexivity|]; split; [discriminate|];
         intros _ x' y' Hx Hy; discriminate).
  exists (cmp_holds OpGt (x ?= y)%Q). split; [reflexivity|]. split.
  - intros H%cmp_gt_true. eauto.
  - intros H%cmp_gt_false x' y' [= <-] [= <-]. done.
Qed.

Lemma max_loop_step items x kx best kb :
  score_key x = Ok kx →
  max_loop score_key (x :: items) best kb =
  b ← py_compare OpGt kx kb;
  if b : bool then max_loop score_key items x kx
  else max_loop score_key items best kb.
Proof. intros H. simpl. by rewrite H. Qed.

(** The loop of [max] over scores that may be NaN: it ends on the best item
    it started with if no item beat it, otherwise on a later item of greater
    numeric score, above every numeric score met before it; in both cases no
    item after the result beats it. *)
Lemma max_loop_gen items best kb :
  score_key best = Ok kb → is_key kb → Forall float_scored items →
  (max_loop score_key items best kb = Ok best ∧
   ∀ m, m ∈ items → beats m best = Ok false) ∨
  ∃ pre b post sb s',
    items = pre ++ b :: post ∧
    max_loop score_key items best kb = Ok b ∧
    kb = VNum sb ∧ has_score b s' ∧ (sb < s')%Q ∧
    (∀ m s, m ∈ pre → has_score m s → (s < s')%Q) ∧
    (∀ m, m ∈ post → beats m b = Ok false).
Proof.
  intros Hbest Hkb Hitems. revert best kb Hbest Hkb.
  induction Hitems as [|x items (kx & Hx & Hkx) _ IH]; intros best kb Hbest Hkb.
  - left. split; [done|]. intros m Hm. by apply elem_of_nil in Hm.
  - rewrite (max_loop_step _ _ _ _ _ Hx).
    destruct (py_gt_keys kx kb Hkx Hkb) as (c & Hc & Ht & Hf).
    rewrite Hc. cbn [mbind result_bind]. destruct c.
    + destruct (Ht eq_refl) as (sx & sb & -> & -> & Hlt). right.
      destruct (IH x (VNum sx) Hx Hkx)
        as [[-> Hall]|(pre & b & post & sb' & s' & -> & -> & Hsb & Hb & Hlt' & Hpre & Hpost)].
      * exists [], x, items, sb, sx. split_and!; [done..| |done].
        intros m s Hm. by apply elem_of_nil in Hm.
      * injection Hsb as <-.
        exists (x :: pre), b, post, sb, s'. split_and!; [done..| | |done].
        { by eapply Qlt_trans. }
        intros m s [->|Hm]%elem_of_cons Hs; [|by eapply Hpre].
        unfold has_score in Hs. rewrite Hx in Hs. by injection Hs as <-.
    + destruct (IH best kb Hbest Hkb)
        as [[-> Hall]|(pre & b & post & sb & s' & -> & -> & -> & Hb & Hlt & Hpre & Hpost)].
      * left. split; [done|].
        intros m [->|Hm]%elem_of_cons; [|by apply Hall].
        unfold beats. rewrite Hx, Hbest. cbn [mbind result_bind]. exact Hc.
      * right. exists (x :: pre), b, post, sb, s'. split_and!; [done..| |done].
        intros m s [->|Hm]%elem_of_cons Hs; [|by eapply Hpre].
        unfold has_score in Hs. rewrite Hx in Hs. injection Hs as ->.
        eapply Qle_lt_trans; [|exact Hlt]. by eapply (Hf eq_refl).
Qed.

Lemma compute_best_move_cons f m0 ms :
  f !! "my_moves" = Some (VList (m0 :: ms)) →
  compute_best_move f = kx ← score_key m0; max_loop score_key ms m0 kx.
Proof. intros Hf. unfold compute_best_move, fact_get. by rewrite Hf. Qed.

(** [compute_best_move] on scores that may be NaN. *)
Lemma compute_best_move_gen f ms :
  f !! "my_moves" = Some (VList ms) → ms ≠ [] → Forall float_scored ms →
  ∃ pre b post,
    ms = pre ++ b :: post ∧ compute_best_move f = Ok b ∧
    (∀ m, m ∈ post → beats m b = Ok false) ∧
    (pre ≠ [] →
     ∃ sb, has_score b sb ∧ ∀ m s, m ∈ pre → has_score m s → (s < sb)%Q) ∧
    (∀ m0, head ms = Some m0 → score_key m0 = Ok VNaN → pre = []).
Proof.
  intros Hf Hne Hms. destruct ms as [|m0 ms]; [done|].
  rewrite (compute_best_move_cons f m0 ms Hf).
  apply Forall_cons in Hms as [(k0 & Hm0 & Hk0) Hms].
  rewrite Hm0. cbn [mbind result_bind].
  destruct (max_loop_gen ms m0 k0 Hm0 Hk0 Hms)
    as [[-> Hall]|(pre & b & post & sb & s' & -> & -> & -> & Hb & Hlt & Hpre & Hpost)].
  - exists [], m0, ms. split_and!; [done..| |done]. by intros [].
  - exists (m0 :: pre), b, post. split_and!; [done..| |].
    + intros _. exists s'. split; [done|].
      intros m s [->|Hm]%elem_of_cons Hs; [|by eapply Hpre].
      unfold has_score in Hs. rewrite Hm0 in Hs. by injection Hs as <-.
    + intros m [= <-] Hn. rewrite Hm0 in Hn. discriminate.
Qed.

(** ** A run of the shipped rules *)

Lemma rules_split str_of capitalize :
  rules str_of capitalize =
  pre_rules ++ D1_COMPUTE_BEST_MOVE :: post_rules str_of capitalize.
Proof. reflexivity. Qed.

Lemma pre_rules_names r :
  r ∈ pre_rules →
  name r ≠ "D1_COMPUTE_BEST_MOVE" ∧ name r ≠ "R6_USE_SUPER_EFFECTIVE".
Proof.
  unfold pre_rules. intros Hr. repeat (apply elem_of_cons in Hr as [->|Hr]);
    [.. | by apply elem_of_nil in Hr]; done.
Qed.

Lemma post_rules_names str_of capitalize r :
  r ∈ post_rules str_of capitalize → name r ≠ "D1_COMPUTE_BEST_MOVE".
Proof.
  unfold post_rules. intros Hr. repeat (apply elem_of_cons in Hr as [->|Hr]);
    [.. | by apply elem_of_nil in Hr]; done.
Qed.

Lemma same_but_recos_refl f : same_but_recos f f.
Proof. by left. Qed.

Lemma same_but_recos_insert f g v :
  same_but_recos f g → same_but_recos f (<["recommendations" := v]> g).
Proof.
  intros [->|[w ->]]; right; exists v; [done|]. by rewrite insert_insert_eq.
Qed.

Lemma same_but_recos_best f g b :
  same_but_recos f g → same_but_recos (<["best_move" := b]> f) (<["best_move" := b]> g).
Proof.
  intros [->|[w ->]]; [by left|]. right. exists w. by apply insert_insert_ne.
Qed.

Lemma same_but_recos_lookup f g k :
  same_but_recos f g → k ≠ "recommendations" → g !! k = f !! k.
Proof. intros [->|[w ->]] Hk; [done|]. by rewrite lookup_insert_ne. Qed.

Lemma when_same_but_recos str_of capitalize r f g :
  r ∈ rules str_of capitalize → same_but_recos f g → when r g = when r f.
Proof.
  intros Hr [->|[w ->]]; [done|]. by eapply when_ignores_recommendations.
Qed.

Lemma compute_same_but_recos f g :
  same_but_recos f g → compute_best_move g = compute_best_move f.
Proof.
  intros [->|[w ->]]; [done|]. apply compute_best_move_ignores_recommendations.
Qed.

Lemma sweep_cons_fire r rs st any :
  name r ∉ st_fired st → when r (st_facts st) = Ok true →
  sweep (r :: rs) st any = then_ r (st_facts st) ≫= λ f', sweep rs (fire r f' st) true.
Proof. intros Hr Hw. simpl. rewrite decide_False by done. by rewrite Hw. Qed.

Lemma loops_one rs st :
  loops 1 rs st = sweep rs st false ≫= λ out, Ok out.1.
Proof. simpl. by destruct (sweep rs st false) as [[st' []]|]. Qed.

(** A run with [max_loops = 1] is one sweep. *)
Lemma forward_chain_one_sweep ls f rs st1 any1 res :
  sweep rs (init_state f) false = Ok (st1, any1) →
  forward_chain ls f rs 1 = Ok res →
  fired_rules res = ls (st_fired st1) ∧ trace res = st_trace st1 ∧
  facts res = st_facts st1.
Proof.
  intros H Hres. unfold forward_chain in Hres.
  apply bind_Ok in Hres as (st & Hl & [= <-]). simpl.
  change (Z.to_nat 1) with 1%nat in Hl. rewrite loops_one, H in Hl.
  by injection Hl as <-.
Qed.

Lemma sweep_any_true rs st st' any' :
  sweep rs st true = Ok (st', any') → any' = true.
Proof.
  revert st. induction rs as [|r rs IH]; intros st; simpl; [by intros [= _ <-]|].
  case_decide; [apply IH|].
  destruct (when r (st_facts st)) as [[]|e]; simpl; [|apply IH|done].
  destruct (then_ r (st_facts st)) as [g|e]; simpl; [apply IH|done].
Qed.

Lemma kb_inv_step str_of capitalize f r st0 g' :
  r ∈ rules str_of capitalize → kb_inv f st0 → name r ∉ st_fired st0 →
  when r (st_facts st0) = Ok true → then_ r (st_facts st0) = Ok g' →
  kb_inv f (fire r g' st0).
Proof.
  intros Hr Hinv Hnew Hw Ht. unfold kb_inv. simpl.
  destruct (rule_then_spec _ _ _ _ _ Hr Ht) as [(Hn & l & ->)|(Hn & b & Hb & ->)].
  - destruct Hinv as [[Hd Hs]|[Hd Hs]]; [left|right];
      (split; [set_solver | by apply same_but_recos_insert]).
  - right. split; [set_solver|].
    destruct Hinv as [[Hd Hs]|[Hd Hs]]; [|by rewrite Hn in Hnew].
    rewrite (compute_same_but_recos _ _ Hs) in Hb.
    unfold with_best, derived_best. rewrite Hb. by apply same_but_recos_best.
Qed.

Lemma kb_inv_init f : kb_inv f (init_state f).
Proof. left. split; [apply not_elem_of_empty | apply same_but_recos_refl]. Qed.

(** In a run of the shipped rules from [f], a rule fires only if its
    condition holds on [f] or on [f] with its best move. *)
Lemma kb_run str_of capitalize f n st' :
  loops n (rules str_of capitalize) (init_state f) = Ok st' →
  kb_inv f st' ∧
  ∀ x, x ∈ st_fired st' →
    ∃ r, r ∈ rules str_of capitalize ∧ name r = x ∧
      (when r f = Ok true ∨ when r (with_best f) = Ok true).
Proof.
  intros H.
  destruct (loops_inv (kb_inv f) _ _ _ _ (kb_inv_step str_of capitalize f)
              (kb_inv_init f) H) as (Hinv & _ & Hfired).
  split; [done|]. intros x Hx.
  destruct (Hfired x Hx) as [Hx0|(r & st0 & Hr & Hn & Hi0 & Hw)];
    [by apply not_elem_of_empty in Hx0|].
  exists r. split_and!; [done | done |].
  destruct Hi0 as [[_ Hs]|[_ Hs]];
    rewrite (when_same_but_recos _ _ _ _ _ Hr Hs) in Hw; eauto.
Qed.

(** The first sweep over the shipped rules when D1 is eligible: D1 fires
    after the rules declared before it, and every rule declared after it is
    tried on the store that already holds the best move. *)
Lemma kb_first_sweep str_of capitalize f st1 any1 :
  sweep (rules str_of capitalize) (init_state f) false = Ok (st1, any1) →
  when D1_COMPUTE_BEST_MOVE f = Ok true →
  compute_best_move f = Ok (derived_best f) ∧
  any1 = true ∧
  "D1_COMPUTE_BEST_MOVE" ∈ st_fired st1 ∧
  same_but_recos (with_best f) (st_facts st1) ∧
  (∀ r, r ∈ post_rules str_of capitalize →
     when r (with_best f) = Ok true → name r ∈ st_fired st1) ∧
  (when (R6_USE_SUPER_EFFECTIVE str_of) (with_best f) = Ok true →
   ∃ pre post, st_trace st1 =
     pre ++ [trace_line D1_COMPUTE_BEST_MOVE;
             trace_line (R6_USE_SUPER_EFFECTIVE str_of)] ++ post).
Proof.
  intros H Hd1. rewrite rules_split, sweep_app in H.
  apply bind_Ok in H as ([sta anya] & Ha & H). cbn [fst snd] in H.
  assert (∀ r, r ∈ pre_rules → r ∈ rules str_of capitalize) as Hpre.
  { intros r Hr. rewrite rules_split. apply elem_of_app. by left. }
  assert (∀ r, r ∈ post_rules str_of capitalize → r ∈ rules str_of capitalize) as Hpost.
  { intros r Hr. rewrite rules_split. apply elem_of_app. right. by apply list_elem_of_further. }
  assert (D1_COMPUTE_BEST_MOVE ∈ rules str_of capitalize) as Hd1in.
  { rewrite rules_split. apply elem_of_app. right. apply list_elem_of_here. }
  (* the rules before D1 *)
  destruct (sweep_inv (λ st, same_but_recos f (st_facts st))
              pre_rules (init_state f) false sta anya
              ltac:(intros r st0 g' Hr Hs _ _ Ht; simpl;
                    destruct (rule_then_spec _ _ _ _ _ (Hpre r Hr) Ht)
                      as [(_ & l & ->)|(Hn & _)];
                    [by apply same_but_recos_insert
                    |by destruct (pre_rules_names r Hr)])
              (same_but_recos_refl f) Ha)
    as (Hsa & _ & [newa Htra] & _ & Hfa).
  assert (∀ x, x ∈ st_fired sta → ∃ r, r ∈ pre_rules ∧ name r = x) as Hfa'.
  { intros x Hx. destruct (Hfa x Hx) as [Hx0|(r & _ & Hr & Hn & _)]; [|eauto].
    by apply not_elem_of_empty in Hx0. }
  (* D1 *)
  rewrite sweep_cons_fire in H; cycle 1.
  { intros Hin. destruct (Hfa' _ Hin) as (r & Hr & Hn).
    by destruct (pre_rules_names r Hr). }
  { by rewrite (when_same_but_recos _ _ _ _ _ Hd1in Hsa). }
  apply bind_Ok in H as (gb & Htb & H).
  pose proof Htb as Htb'. cbn [then_ D1_COMPUTE_BEST_MOVE] in Htb'.
  apply bind_Ok in Htb' as (b & Hb & [= <-]).
  rewrite (compute_same_but_recos _ _ Hsa) in Hb.
  assert (derived_best f = b) as Hbest by (unfold derived_best; by rewrite Hb).
  assert (same_but_recos (with_best f) (<["best_move" := b]> (st_facts sta))) as Hsb.
  { unfold with_best. rewrite Hbest. by apply same_but_recos_best. }
  set (stb := fire D1_COMPUTE_BEST_MOVE (<["best_move" := b]> (st_facts sta)) sta) in *.
  (* the rules after D1 *)
  destruct (sweep_inv (λ st, same_but_recos (with_best f) (st_facts st))
              (post_rules str_of capitalize) stb true st1 any1
              ltac:(intros r st0 g' Hr Hs _ _ Ht; simpl;
                    destruct (rule_then_spec _ _ _ _ _ (Hpost r Hr) Ht)
                      as [(_ & l & ->)|(Hn & _)];
                    [by apply same_but_recos_insert
                    |by destruct (post_rules_names _ _ r Hr)])
              Hsb H)
    as (Hs1 & Hsub1 & _ & Hall1 & _).
  split_and!.
  - by rewrite Hbest.
  - by eapply sweep_any_true.
  - apply Hsub1. subst stb. simpl. by apply elem_of_union_l, elem_of_singleton.
  - done.
  - intros r Hr Hw. destruct (Hall1 r Hr) as [Hin|(st0 & Hs0 & Hw0)]; [done|].
    rewrite (when_same_but_recos _ _ _ _ _ (Hpost r Hr) Hs0) in Hw0. congruence.
  - intros Hw6. unfold post_rules in H.
    rewrite sweep_cons_fire in H; cycle 1.
    { subst stb. simpl. intros [Hin|Hin]%elem_of_union;
        [by apply elem_of_singleton in Hin|].
      destruct (Hfa' _ Hin) as (r & Hr & Hn). by destruct (pre_rules_names r Hr). }
    { rewrite (when_same_but_recos str_of capitalize _ (with_best f));
        [done | apply Hpost; apply list_elem_of_here | done]. }
    apply bind_Ok in H as (gc & Htc & H).
    destruct (sweep_inv (λ _, True) _ _ _ _ _ ltac:(done) I H)
      as (_ & _ & [newc Htrc] & _ & _).
    exists (st_trace sta), newc. rewrite Htrc. subst stb. simpl.
    by rewrite <- !app_assoc.
Qed.

(** ** The rules that react to the best move *)

Lemma R6_when str_of f d e :
  f !! "best_move" = Some (VDict d) → assoc_get d "eff" = Some (VNum e) →
  when (R6_USE_SUPER_EFFECTIVE str_of) f = Ok (cmp_holds OpGe (e ?= 2)%Q).
Proof.
  intros Hb He. unfold_rules. unfold_reads. rewrite Hb. simpl. by rewrite He.
Qed.

Lemma R7_when str_of f d e :
  f !! "best_move" = Some (VDict d) → assoc_get d "eff" = Some (VNum e) →
  when (R7_USE_NEUTRAL_BEST str_of) f =
    Ok (cmp_holds OpLt (0.5 ?= e)%Q && cmp_holds OpLt (e ?= 2)%Q).
Proof.
  intros Hb He. unfold_rules. unfold_reads. rewrite Hb. simpl. rewrite He. simpl.
  by destruct (0.5 ?= e)%Q.
Qed.

Lemma R8_when f d e h :
  f !! "best_move" = Some (VDict d) → assoc_get d "eff" = Some (VNum e) →
  f !! "enemy_hp_pct" = Some (VNum h) →
  when R8_SWITCH_IF_ALL_RESISTED f =
    Ok (cmp_holds OpLe (e ?= 0.5)%Q && cmp_holds OpGe (h ?= 40)%Q).
Proof.
  intros Hb He Hh. unfold_rules. unfold_reads. rewrite Hb, Hh. simpl. rewrite He. simpl.
  by destruct (e ?= 0.5)%Q.
Qed.

(** Without a best move none of the three is eligible. *)
Lemma no_best_move_when str_of f :
  f !! "best_move" = None →
  when (R6_USE_SUPER_EFFECTIVE str_of) f = Ok false ∧
  when (R7_USE_NEUTRAL_BEST str_of) f = Ok false ∧
  when R8_SWITCH_IF_ALL_RESISTED f = Ok false.
Proof. intros Hb. unfold_rules. unfold_reads. by rewrite Hb. Qed.

Lemma D1_when_list f ms :
  f !! "my_moves" = Some (VList ms) →
  when D1_COMPUTE_BEST_MOVE f =
    Ok (bool_decide (f !! "best_move" = None) && bool_decide (ms ≠ [])).
Proof.
  intros Hm. unfold_rules. unfold_reads. rewrite Hm. simpl.
  destruct (bool_decide (f !! "best_move" = None)); simpl; [|done].
  f_equal. by destruct ms.
Qed.

Lemma with_best_lookup f b :
  compute_best_move f = Ok b → with_best f !! "best_move" = Some b.
Proof.
  intros Hb. unfold with_best, derived_best. rewrite Hb. apply lookup_insert_eq.
Qed.



(** ** Whole runs of the shipped rules *)

Lemma enum_perm_elem (ls : gset string → list string) (X : gset string) x :
  (∀ X, ls X ≡ₚ elements X) → x ∈ ls X ↔ x ∈ X.
Proof. intros H. by rewrite (H X), elem_of_elements. Qed.

Ltac rule_named Hr Hn :=
  each_rule Hr; unfold_rules; first [discriminate Hn | reflexivity].

Lemma rule_named_D1 str_of capitalize r :
  r ∈ rules str_of capitalize → name r = "D1_COMPUTE_BEST_MOVE" →
  r = D1_COMPUTE_BEST_MOVE.
Proof. intros Hr Hn. rule_named Hr Hn. Qed.

Lemma rule_named_R6 str_of capitalize r :
  r ∈ rules str_of capitalize → name r = "R6_USE_SUPER_EFFECTIVE" →
  r = R6_USE_SUPER_EFFECTIVE str_of.
Proof. intros Hr Hn. rule_named Hr Hn. Qed.

Lemma rule_named_R7 str_of capitalize r :
  r ∈ rules str_of capitalize → name r = "R7_USE_NEUTRAL_BEST" →
  r = R7_USE_NEUTRAL_BEST str_of.
Proof. intros Hr Hn. rule_named Hr Hn. Qed.

Lemma rule_named_R8 str_of capitalize r :
  r ∈ rules str_of capitalize → name r = "R8_SWITCH_IF_ALL_RESISTED" →
  r = R8_SWITCH_IF_ALL_RESISTED.
Proof. intros Hr Hn. rule_named Hr Hn. Qed.

Lemma rule_named_R14 str_of capitalize r :
  r ∈ rules str_of capitalize → name r = "R14_NO_GOOD_MOVES_WARNING" →
  r = R14_NO_GOOD_MOVES_WARNING.
Proof. intros Hr Hn. rule_named Hr Hn. Qed.

(** A run of at least one sweep from a store on which D1 is eligible. *)
Lemma kb_forward_chain str_of capitalize ls f n res :
  (∀ X, ls X ≡ₚ elements X) →
  when D1_COMPUTE_BEST_MOVE f = Ok true →
  (0 < n)%Z →
  forward_chain ls f (rules str_of capitalize) n = Ok res →
  compute_best_move f = Ok (derived_best f) ∧
  facts res !! "best_move" = Some (derived_best f) ∧
  "D1_COMPUTE_BEST_MOVE" ∈ fired_rules res ∧
  (∀ r, r ∈ post_rules str_of capitalize →
     when r (with_best f) = Ok true → name r ∈ fired_rules res) ∧
  (∀ x, x ∈ fired_rules res →
     ∃ r, r ∈ rules str_of capitalize ∧ name r = x ∧
       (when r f = Ok true ∨ when r (with_best f) = Ok true)).
Proof.
  intros Hls Hd1 Hn Hres. unfold forward_chain in Hres.
  apply bind_Ok in Hres as (st' & Hl & [= <-]). cbn [facts fired_rules].
  destruct (kb_run _ _ _ _ _ Hl) as (Hinv & Hfired).
  destruct (Z.to_nat n) as [|k] eqn:Hk; [lia|].
  apply loops_first_sweep in Hl as (st1 & any1 & Hs & Hsub & _).
  destruct (kb_first_sweep _ _ _ _ _ Hs Hd1) as (Hb & _ & Hfd & _ & Hall & _).
  assert ("D1_COMPUTE_BEST_MOVE" ∈ st_fired st') as Hfd' by by apply Hsub.
  split_and!.
  - done.
  - destruct Hinv as [[Hno _]|[_ Hsame]]; [done|].
    rewrite (same_but_recos_lookup _ _ _ Hsame) by done. by apply with_best_lookup.
  - by apply enum_perm_elem.
  - intros r Hr Hw. apply enum_perm_elem; [done|]. apply Hsub. by apply Hall.
  - intros x Hx. apply Hfired. by apply (enum_perm_elem ls).
Qed.

Lemma py_all_true p l :
  py_all p l = Ok true → ∀ m, m ∈ l → p m = Ok true.
Proof.
  induction l as [|x l IH]; simpl; intros H m Hm; [by apply elem_of_nil in Hm|].
  destruct (p x) as [[]|e] eqn:Hp; simpl in H; try discriminate.
  apply elem_of_cons in Hm as [->|Hm]; [done | by apply IH].
Qed.

(** R14 holds only when every scored move scores below 30. *)
Lemma R14_when_true f ms :
  f !! "my_moves" = Some (VList ms) →
  when R14_NO_GOOD_MOVES_WARNING f = Ok true →
  ∀ m s, m ∈ ms → has_score m s → (s < 30)%Q.
Proof.
  intros Hm Hw m s Hin Hs. unfold_rules. unfold_reads. rewrite Hm in Hw.
  simpl in Hw. destruct (bool_decide (0 < length ms)%nat); [|done].
  simpl in Hw.
  pose proof (py_all_true _ _ Hw m Hin) as Hp.
  unfold score_below_30 in Hp. unfold has_score in Hs. rewrite Hs in Hp.
  cbn [mbind result_bind] in Hp. rewrite py_compare_num in Hp.
  injection Hp as Hp. by apply cmp_lt.
Qed.

Lemma reco_inj text p text' p' : reco text p = reco text' p' → text = text' ∧ p = p'.
Proof. unfold reco, inject_Z. by intros [= -> ->]. Qed.

Lemma py_getitem_Ok d k v :
  py_getitem (VDict d) k = Ok v → assoc_get d k = Some v.
Proof. simpl. destruct (assoc_get d k); [by intros [= ->] | discriminate]. Qed.

(** What the actions of R6, R7 and R8 append. *)
Lemma R6_then str_of g g' d :
  g !! "best_move" = Some (VDict d) →
  then_ (R6_USE_SUPER_EFFECTIVE str_of) g = Ok g' →
  ∃ l nm ef, recos_of g = VList l ∧
    assoc_get d "name" = Some nm ∧ assoc_get d "eff" = Some ef ∧
    g' = <["recommendations" := VList (l ++ [reco (R6_text str_of nm ef) 92])]> g.
Proof.
  intros Hb H. unfold_rules. unfold best_move_field, fact_getitem in H.
  rewrite Hb in H. cbn [mbind result_bind] in H.
  apply bind_Ok in H as (nm & Hnm%py_getitem_Ok & H).
  apply bind_Ok in H as (ef & Hef%py_getitem_Ok & H).
  apply add_reco_appends in H as (l & Hl & ->). by exists l, nm, ef.
Qed.

Lemma R7_then str_of g g' d :
  g !! "best_move" = Some (VDict d) →
  then_ (R7_USE_NEUTRAL_BEST str_of) g = Ok g' →
  ∃ l nm, recos_of g = VList l ∧ assoc_get d "name" = Some nm ∧
    g' = <["recommendations" := VList (l ++ [reco (R7_text str_of nm) 75])]> g.
Proof.
  intros Hb H. unfold_rules. unfold best_move_field, fact_getitem in H.
  rewrite Hb in H. cbn [mbind result_bind] in H.
  apply bind_Ok in H as (nm & Hnm%py_getitem_Ok & H).
  apply add_reco_appends in H as (l & Hl & ->). by exists l, nm.
Qed.

Lemma R8_then g g' :
  then_ R8_SWITCH_IF_ALL_RESISTED g = Ok g' →
  ∃ l, recos_of g = VList l ∧
    g' = <["recommendations" := VList (l ++ [reco R8_text 85])]> g.
Proof.
  intros H. unfold_rules. apply add_reco_appends in H as (l & Hl & ->).
  by exists l.
Qed.

(** The priorities 92, 75, 85 and 60 are those of R6, R7, R8 and R14 and
    of no other rule. *)
Lemma rule_then_priority str_of capitalize r g g' :
  r ∈ rules str_of capitalize → name r ≠ "D1_COMPUTE_BEST_MOVE" →
  then_ r g = Ok g' →
  ∃ l text p, recos_of g = VList l ∧
    g' = <["recommendations" := VList (l ++ [reco text p])]> g ∧
    (p = 92%Z → name r = "R6_USE_SUPER_EFFECTIVE") ∧
    (p = 75%Z → name r = "R7_USE_NEUTRAL_BEST") ∧
    (p = 85%Z → name r = "R8_SWITCH_IF_ALL_RESISTED") ∧
    (p = 60%Z → name r = "R14_NO_GOOD_MOVES_WARNING").
Proof.
  intros Hr Hn H. each_rule Hr; unfold_rules; try done;
    repeat match type of H with
           | _ ≫= _ = Ok _ => apply bind_Ok in H as (? & ? & H)
           end;
    apply add_reco_appends in H as (l & Hl & ->);
    eexists _, _, _; (split; [exact Hl|]); (split; [reflexivity|]);
    split_and!; intros; first [done | lia].
Qed.

Lemma tier_best_move str_of (capitalize : string → string) f d r st0 :
  f !! "best_move" = None → compute_best_move f = Ok (VDict d) →
  kb_inv f st0 →
  r ∈ [R6_USE_SUPER_EFFECTIVE str_of; R7_USE_NEUTRAL_BEST str_of] →
  when r (st_facts st0) = Ok true →
  st_facts st0 !! "best_move" = Some (VDict d).
Proof.
  intros Hnb Hb Hinv Hr Hw.
  assert (r ∈ rules str_of capitalize) as Hr'.
  { unfold rules. do 6 apply list_elem_of_further.
    apply elem_of_cons in Hr as [->|Hr]; [apply list_elem_of_here|].
    apply list_elem_of_singleton in Hr as ->.
    apply list_elem_of_further, list_elem_of_here. }
  destruct Hinv as [[_ Hs]|[_ Hs]].
  - rewrite (when_same_but_recos _ _ _ _ _ Hr' Hs) in Hw.
    destruct (no_best_move_when str_of f Hnb) as (H6 & H7 & _).
    apply elem_of_cons in Hr as [->|Hr]; [congruence|].
    apply list_elem_of_singleton in Hr as ->. congruence.
  - rewrite (same_but_recos_lookup _ _ _ Hs) by done. by apply with_best_lookup.
Qed.

Lemma tier_recos_step str_of capitalize f d l0 r st0 g' :
  f !! "best_move" = None → compute_best_move f = Ok (VDict d) →
  r ∈ rules str_of capitalize →
  kb_inv f st0 ∧ tier_recos str_of d l0 st0 →
  name r ∉ st_fired st0 →
  when r (st_facts st0) = Ok true → then_ r (st_facts st0) = Ok g' →
  kb_inv f (fire r g' st0) ∧ tier_recos str_of d l0 (fire r g' st0).
Proof.
  intros Hnb Hb Hr [Hinv (new & Hrec & Hback & H6 & H7 & H8)] Hnew Hw Ht.
  split; [by eapply kb_inv_step|].
  unfold tier_recos. cbn [fire st_facts st_fired].
  assert (∀ x, x ∈ st_fired st0 → x ∈ ({[name r]} ∪ st_fired st0 : gset string))
    as Hmono by (intros x Hx; by apply elem_of_union_r).
  assert (∀ x, x ≠ name r → x ∈ ({[name r]} ∪ st_fired st0 : gset string) →
            x ∈ st_fired st0) as Hold.
  { intros x Hx [Hin%elem_of_singleton|Hin]%elem_of_union; [done|done]. }
  assert (name r ∈ ({[name r]} ∪ st_fired st0 : gset string)) as Hself
    by (apply elem_of_union_l; by apply elem_of_singleton).
  destruct (decide (name r = "D1_COMPUTE_BEST_MOVE")) as [Hd|Hd].
  { destruct (rule_then_spec _ _ _ _ _ Hr Ht) as [[Hn' _]|(_ & b & _ & ->)]; [done|].
    exists new. rewrite recos_of_insert_best. split; [done|]. split_and!.
    - intros text p Hin. destruct (Hback text p Hin) as (B6 & B7 & B8 & B14).
      split_and!; intros Hp; apply Hmono; eauto.
    - intros Hin. apply H6, Hold; [by rewrite Hd|done].
    - intros Hin. apply H7, Hold; [by rewrite Hd|done].
    - intros Hin. apply H8, Hold; [by rewrite Hd|done]. }
  destruct (rule_then_priority _ _ _ _ _ Hr Hd Ht)
    as (l & text & p & Hl & -> & P6 & P7 & P8 & P14).
  rewrite Hrec in Hl. injection Hl as <-.
  exists (new ++ [reco text p]). rewrite recos_of_insert_recos, app_assoc.
  split; [done|].
  assert (∀ v, v ∈ new → v ∈ new ++ [reco text p]) as Hgrow
    by (intros v Hv; apply elem_of_app; by left).
  assert (reco text p ∈ new ++ [reco text p]) as Hlast
    by (apply elem_of_app; right; apply list_elem_of_here).
  assert (st_facts st0 !! "recommendations" = Some (VList (l0 ++ new)) ∨
          st_facts st0 !! "recommendations" = None ∧ l0 ++ new = []) as Hlook.
  { unfold recos_of, fact_get in Hrec.
    destruct (st_facts st0 !! "recommendations") as [v|]; simpl in Hrec.
    - left. by rewrite Hrec.
    - right. split; [done|]. by injection Hrec as <-. }
  assert (∀ text' p' l', recos_of (st_facts st0) = VList l' →
            <["recommendations" := VList (l' ++ [reco text' p'])]> (st_facts st0)
            = <["recommendations" := VList ((l0 ++ new) ++ [reco text p])]> (st_facts st0) →
            reco text' p' = reco text p) as Hsame.
  { intros text' p' l' Hl' Heq. rewrite Hrec in Hl'. injection Hl' as <-.
    apply (f_equal (λ m : FactBase, m !! "recommendations")) in Heq.
    rewrite !lookup_insert_eq in Heq. injection Heq as Heq.
    by apply app_inj_tail in Heq as [_ Heq]. }
  split_and!.
  - intros text' p' [Hin|Hin%list_elem_of_singleton]%elem_of_app.
    + destruct (Hback text' p' Hin) as (B6 & B7 & B8 & B14).
      split_and!; intros Hp; apply Hmono; eauto.
    + apply reco_inj in Hin as [_ ->].
      split_and!; intros Hp; [rewrite <- (P6 Hp) | rewrite <- (P7 Hp)
                              | rewrite <- (P8 Hp) | rewrite <- (P14 Hp)]; exact Hself.
  - intros Hin.
    destruct (decide (name r = "R6_USE_SUPER_EFFECTIVE")) as [Hn|Hn].
    + rewrite (rule_named_R6 _ _ _ Hr Hn) in Hw, Ht.
      assert (st_facts st0 !! "best_move" = Some (VDict d)) as Hbm.
      { eapply (tier_best_move str_of capitalize f d _ st0 Hnb Hb Hinv); [|exact Hw].
        apply list_elem_of_here. }
      destruct (R6_then _ _ _ _ Hbm Ht) as (l' & nm & ef & Hl' & Hnm & Hef & Heq).
      exists nm, ef. split_and!; [done..|].
      rewrite (Hsame _ _ _ Hl' (eq_sym Heq)). exact Hlast.
    + destruct (H6 (Hold _ (not_eq_sym Hn) Hin)) as (nm & ef & Hnm & Hef & Hreco).
      exists nm, ef. split_and!; [done..|]. by apply Hgrow.
  - intros Hin.
    destruct (decide (name r = "R7_USE_NEUTRAL_BEST")) as [Hn|Hn].
    + rewrite (rule_named_R7 _ _ _ Hr Hn) in Hw, Ht.
      assert (st_facts st0 !! "best_move" = Some (VDict d)) as Hbm.
      { eapply (tier_best_move str_of capitalize f d _ st0 Hnb Hb Hinv); [|exact Hw].
        apply list_elem_of_further, list_elem_of_here. }
      destruct (R7_then _ _ _ _ Hbm Ht) as (l' & nm & Hl' & Hnm & Heq).
      exists nm. split; [done|].
      rewrite (Hsame _ _ _ Hl' (eq_sym Heq)). exact Hlast.
    + destruct (H7 (Hold _ (not_eq_sym Hn) Hin)) as (nm & Hnm & Hreco).
      exists nm. split; [done|]. by apply Hgrow.
  - intros Hin.
    destruct (decide (name r = "R8_SWITCH_IF_ALL_RESISTED")) as [Hn|Hn].
    + rewrite (rule_named_R8 _ _ _ Hr Hn) in Ht.
      destruct (R8_then _ _ Ht) as (l' & Hl' & Heq).
      rewrite (Hsame _ _ _ Hl' (eq_sym Heq)). exact Hlast.
    + apply Hgrow, H8, (Hold _ (not_eq_sym Hn) Hin).
Qed.

Lemma tier_recos_init str_of d f l0 :
  recos_of f = VList l0 → tier_recos str_of d l0 (init_state f).
Proof.
  intros H0. exists []. rewrite app_nil_r. split; [done|]. simpl.
  split_and!.
  - intros text p Hin. by apply elem_of_nil in Hin.
  - intros Hin. by apply not_elem_of_empty in Hin.
  - intros Hin. by apply not_elem_of_empty in Hin.
  - intros Hin. by apply not_elem_of_empty in Hin.
Qed.

(** The recommendations at the end of a run of the shipped rules that
    derives the best move [d]. *)
Lemma tier_recos_run str_of capitalize ls f d l0 n res :
  (∀ X, ls X ≡ₚ elements X) →
  f !! "best_move" = None → compute_best_move f = Ok (VDict d) →
  recos_of f = VList l0 →
  forward_chain ls f (rules str_of capitalize) n = Ok res →
  ∃ new, recos_of (facts res) = VList (l0 ++ new) ∧
    (∀ text p, reco text p ∈ new →
       (p = 92%Z → "R6_USE_SUPER_EFFECTIVE" ∈ fired_rules res) ∧
       (p = 75%Z → "R7_USE_NEUTRAL_BEST" ∈ fired_rules res) ∧
       (p = 85%Z → "R8_SWITCH_IF_ALL_RESISTED" ∈ fired_rules res) ∧
       (p = 60%Z → "R14_NO_GOOD_MOVES_WARNING" ∈ fired_rules res)) ∧
    ("R6_USE_SUPER_EFFECTIVE" ∈ fired_rules res →
     ∃ nm ef, assoc_get d "name" = Some nm ∧ assoc_get d "eff" = Some ef ∧
       reco (R6_text str_of nm ef) 92 ∈ new) ∧
    ("R7_USE_NEUTRAL_BEST" ∈ fired_rules res →
     ∃ nm, assoc_get d "name" = Some nm ∧ reco (R7_text str_of nm) 75 ∈ new) ∧
    ("R8_SWITCH_IF_ALL_RESISTED" ∈ fired_rules res → reco R8_text 85 ∈ new).
Proof.
  intros Hls Hnb Hb H0 H. unfold forward_chain in H.
  apply bind_Ok in H as (st & Hl & [= <-]). cbn [facts fired_rules].
  destruct (loops_inv (λ st, kb_inv f st ∧ tier_recos str_of d l0 st) _ _ _ _
              (λ r st0 g' Hr Hi Hn Hw Ht,
                 tier_recos_step str_of capitalize f d l0 r st0 g'
                   Hnb Hb Hr Hi Hn Hw Ht)
              (conj (kb_inv_init f) (tier_recos_init str_of d f l0 H0)) Hl)
    as ((_ & new & Hrec & Hback & H6 & H7 & H8) & _).
  exists new. split; [done|].
  split_and!; intros; rewrite ?(enum_perm_elem ls _ _ Hls) in *; eauto.
Qed.

(** The rules that fired, by effectiveness tier of the best move. *)
Lemma best_move_tiers_fired
  (str_of : value → string) (capitalize : string → string)
  (ls : gset string → list string) (f : FactBase) (ms : list value)
  (d : list (string * value)) (e h : Q) (n : Z) (res : InferenceResult) :
  (∀ X, ls X ≡ₚ elements X) →
  f !! "best_move" = None →
  f !! "my_moves" = Some (VList ms) → ms ≠ [] →
  compute_best_move f = Ok (VDict d) →
  assoc_get d "eff" = Some (VNum e) →
  f !! "enemy_hp_pct" = Some (VNum h) →
  (0 < n)%Z →
  forward_chain ls f (rules str_of capitalize) n = Ok res →
  facts res !! "best_move" = Some (VDict d) ∧
  ("R6_USE_SUPER_EFFECTIVE" ∈ fired_rules res ↔ (2 <= e)%Q) ∧
  ("R7_USE_NEUTRAL_BEST" ∈ fired_rules res ↔ (0.5 < e)%Q ∧ (e < 2)%Q) ∧
  ("R8_SWITCH_IF_ALL_RESISTED" ∈ fired_rules res ↔ (e <= 0.5)%Q ∧ (40 <= h)%Q) ∧
  ((∃ m s, m ∈ ms ∧ has_score m s ∧ (30 <= s)%Q) →
   "R14_NO_GOOD_MOVES_WARNING" ∉ fired_rules res).
Proof.
  intros Hls Hnb Hm Hne Hb He Hh Hn Hres.
  assert (when D1_COMPUTE_BEST_MOVE f = Ok true) as Hd1.
  { rewrite (D1_when_list f ms Hm). by rewrite !bool_decide_eq_true_2. }
  destruct (kb_forward_chain _ _ _ _ _ _ Hls Hd1 Hn Hres)
    as (Hb' & Hfb & _ & Hall & Hfired).
  assert (derived_best f = VDict d) as Hdb by congruence.
  assert (with_best f !! "best_move" = Some (VDict d)) as Hwb
    by by apply with_best_lookup.
  assert (with_best f !! "enemy_hp_pct" = Some (VNum h)) as Hwh
    by (unfold with_best; by rewrite lookup_insert_ne).
  assert (with_best f !! "my_moves" = Some (VList ms)) as Hwm
    by (unfold with_best; by rewrite lookup_insert_ne).
  destruct (no_best_move_when str_of f Hnb) as (Hn6 & Hn7 & Hn8).
  pose proof (R6_when str_of _ d e Hwb He) as H6.
  pose proof (R7_when str_of _ d e Hwb He) as H7.
  pose proof (R8_when _ d e h Hwb He Hwh) as H8.
  split_and!.
  - by rewrite Hfb, Hdb.
  - split.
    + intros Hin. destruct (Hfired _ Hin) as (r & Hr & Hname & Hw).
      rewrite (rule_named_R6 _ _ _ Hr Hname) in Hw.
      destruct Hw as [Hw|Hw]; [congruence|].
      rewrite H6 in Hw. injection Hw as Hw. by apply cmp_ge.
    + intros Hle. apply (Hall (R6_USE_SUPER_EFFECTIVE str_of));
        [apply list_elem_of_here|]. rewrite H6. f_equal. by apply cmp_ge.
  - rewrite <- !cmp_lt, <- andb_true_iff. split.
    + intros Hin. destruct (Hfired _ Hin) as (r & Hr & Hname & Hw).
      rewrite (rule_named_R7 _ _ _ Hr Hname) in Hw.
      destruct Hw as [Hw|Hw]; [congruence|].
      rewrite H7 in Hw. by injection Hw as Hw.
    + intros Hle. apply (Hall (R7_USE_NEUTRAL_BEST str_of));
        [apply list_elem_of_further, list_elem_of_here|]. rewrite H7. by f_equal.
  - rewrite <- cmp_le, <- cmp_ge, <- andb_true_iff. split.
    + intros Hin. destruct (Hfired _ Hin) as (r & Hr & Hname & Hw).
      rewrite (rule_named_R8 _ _ _ Hr Hname) in Hw.
      destruct Hw as [Hw|Hw]; [congruence|].
      rewrite H8 in Hw. by injection Hw as Hw.
    + intros Hle. apply (Hall R8_SWITCH_IF_ALL_RESISTED);
        [do 2 apply list_elem_of_further; apply list_elem_of_here|].
      rewrite H8. by f_equal.
  - intros (m & s & Hin & Hs & Hle) Hfired14.
    destruct (Hfired _ Hfired14) as (r & Hr & Hname & Hw).
    rewrite (rule_named_R14 _ _ _ Hr Hname) in Hw.
    eapply Qlt_not_le; [|exact Hle].
    destruct Hw as [Hw|Hw];
      [exact (R14_when_true f ms Hm Hw m s Hin Hs)
      |exact (R14_when_true _ ms Hwm Hw m s Hin Hs)].
Qed.

(** C5: after a run that derives the best move, the rules reacting to it
    have fired by effectiveness tier and each has appended its
    recommendation: R6 exactly when the effectiveness is at least 2.0, R7
    exactly when it is strictly between 0.5 and 2.0, R8 exactly when it is at
    most 0.5 and the enemy HP is at least 40; and R14 has not fired, nor left
    its warning, when some candidate move scores 30 or more. *)
Theorem best_move_tiers
  (str_of : value → string) (capitalize : string → string)
  (ls : gset string → list string) (f : FactBase) (ms : list value)
  (d : list (string * value)) (e h : Q) (n : Z) (res : InferenceResult) :
  (∀ X, ls X ≡ₚ elements X) →
  f !! "best_move" = None →
  f !! "my_moves" = Some (VList ms) → ms ≠ [] →
  compute_best_move f = Ok (VDict d) →
  assoc_get d "eff" = Some (VNum e) →
  f !! "enemy_hp_pct" = Some (VNum h) →
  (0 < n)%Z →
  forward_chain ls f (rules str_of capitalize) n = Ok res →
  facts res !! "best_move" = Some (VDict d) ∧
  ("R6_USE_SUPER_EFFECTIVE" ∈ fired_rules res ↔ (2 <= e)%Q) ∧
  ("R7_USE_NEUTRAL_BEST" ∈ fired_rules res ↔ (0.5 < e)%Q ∧ (e < 2)%Q) ∧
  ("R8_SWITCH_IF_ALL_RESISTED" ∈ fired_rules res ↔ (e <= 0.5)%Q ∧ (40 <= h)%Q) ∧
  ((∃ m s, m ∈ ms ∧ has_score m s ∧ (30 <= s)%Q) →
   "R14_NO_GOOD_MOVES_WARNING" ∉ fired_rules res) ∧
  (∀ l0, recos_of f = VList l0 →
     ∃ new, recos_of (facts res) = VList (l0 ++ new) ∧
       ((2 <= e)%Q →
        ∃ nm, assoc_get d "name" = Some nm ∧
              reco (R6_text str_of nm (VNum e)) 92 ∈ new) ∧
       ((0.5 < e)%Q ∧ (e < 2)%Q →
        ∃ nm, assoc_get d "name" = Some nm ∧
              reco (R7_text str_of nm) 75 ∈ new) ∧
       ((e <= 0.5)%Q ∧ (40 <= h)%Q → reco R8_text 85 ∈ new) ∧
       (∀ text p, reco text p ∈ new →
          (p = 92%Z → (2 <= e)%Q) ∧
          (p = 75%Z → (0.5 < e)%Q ∧ (e < 2)%Q) ∧
          (p = 85%Z → (e <= 0.5)%Q ∧ (40 <= h)%Q) ∧
          (p = 60%Z → ¬ ∃ m s, m ∈ ms ∧ has_score m s ∧ (30 <= s)%Q))).
Proof.
  intros Hls Hnb Hm Hne Hb He Hh Hn Hres.
  destruct (best_move_tiers_fired str_of capitalize ls f ms d e h n res
              Hls Hnb Hm Hne Hb He Hh Hn Hres) as (Hbest & H6 & H7 & H8 & H14).
  split_and!; [done..|]. intros l0 Hl0.
  destruct (tier_recos_run str_of capitalize ls f d l0 n res Hls Hnb Hb Hl0 Hres)
    as (new & Hrec & Hback & F6 & F7 & F8).
  exists new. split; [done|]. split_and!.
  - intros Hle. destruct (F6 (proj2 H6 Hle)) as (nm & ef & Hnm & Hef & Hr).
    rewrite He in Hef. injection Hef as <-. eauto.
  - intros Hle. exact (F7 (proj2 H7 Hle)).
  - intros Hle. exact (F8 (proj2 H8 Hle)).
  - intros text p Hr. destruct (Hback text p Hr) as (B6 & B7 & B8 & B14).
    split_and!; intros Hp.
    + by apply H6, B6.
    + by apply H7, B7.
    + by apply H8, B8.
    + intros Hex. by apply (H14 Hex), B14.
Qed.

Lemma best_move_tiers_witness :
  ∃ res, forward_chain elements scenario3 shipped_rules 20 = Ok res ∧
    facts res !! "best_move" = Some (move "wing-attack" "flying" 40 2 80) ∧
    ("R6_USE_SUPER_EFFECTIVE" ∈ fired_rules res ↔ (2 <= 2)%Q) ∧
    ("R7_USE_NEUTRAL_BEST" ∈ fired_rules res ↔ (0.5 < 2)%Q ∧ (2 < 2)%Q) ∧
    ("R8_SWITCH_IF_ALL_RESISTED" ∈ fired_rules res ↔ (2 <= 0.5)%Q ∧ (40 <= 60)%Q) ∧
    ((∃ m s, m ∈ scenario3_moves ∧ has_score m s ∧ (30 <= s)%Q) →
     "R14_NO_GOOD_MOVES_WARNING" ∉ fired_rules res) ∧
    ∃ new, recos_of (facts res) = VList new ∧
      (reco "Tu mejor opción ofensiva es wing-attack (efectividad x2.0)." 92 ∈ new) ∧
      ∀ text, (reco text 75 ∉ new) ∧ (reco text 85 ∉ new) ∧ (reco text 60 ∉ new).
Proof.
  eexists. split; [vm_compute; reflexivity|].
  destruct (best_move_tiers show capitalize_ascii elements scenario3
              scenario3_moves
              [("name", VStr "wing-attack"); ("identifier", VStr "wing-attack");
               ("type", VStr "flying"); ("power", VNum 40); ("eff", VNum 2);
               ("score", VNum 80)] 2 60 20 _
              elements_enumerates ltac:(vm_compute; reflexivity)
              ltac:(vm_compute; reflexivity) ltac:(discriminate)
              ltac:(vm_compute; reflexivity) ltac:(vm_compute; reflexivity)
              ltac:(vm_compute; reflexivity) ltac:(reflexivity)
              ltac:(vm_compute; reflexivity))
    as (Hbest & H6 & H7 & H8 & H14 & Hrecos).
  split_and!; [exact Hbest | exact H6 | exact H7 | exact H8 | exact H14 |].
  destruct (Hrecos [] ltac:(vm_compute; reflexivity))
    as (new & Hrec & I6 & _ & _ & Iback).
  exists new. split; [exact Hrec|]. split.
  - destruct (I6 ltac:(discriminate)) as (nm & Hnm & Hr).
    injection Hnm as <-. exact Hr.
  - intros text. split_and!; intros Hr;
      destruct (Iback _ _ Hr) as (_ & B7 & B8 & B14).
    + destruct (B7 eq_refl) as [_ Hlt]. by vm_compute in Hlt.
    + destruct (B8 eq_refl) as [Hle _]. by apply Hle.
    + apply (B14 eq_refl).
      exists (move "wing-attack" "flying" 40 2 80), 80%Q.
      split_and!; [|reflexivity|discriminate].
      do 3 apply list_elem_of_further. apply list_elem_of_here.
Defined.

Lemma D1_when_iff f :
  when D1_COMPUTE_BEST_MOVE f = Ok true ↔
  f !! "best_move" = None ∧
  ∃ n, py_len (fact_get f "my_moves" (VList [])) = Ok (S n).
Proof.
  unfold_rules. unfold fact_nonempty, and_then. cbn [mbind result_bind].
  destruct (bool_decide_reflect (f !! "best_move" = None)) as [Hb|Hb].
  - destruct (py_len (fact_get f "my_moves" (VList []))) as [[|k]|err]; simpl.
    + split; [done|]. by intros (_ & k & [=]).
    + split; [eauto|done].
    + split; [done|]. by intros (_ & k & [=]).
  - split; [done|]. by intros [? _].
Qed.

Lemma count_occ_NoDup_elem (l : list string) x :
  NoDup l → x ∈ l → count_occ String.string_dec l x = 1%nat.
Proof.
  intros Hn Hx. apply NoDup_ListNoDup in Hn.
  pose proof (proj1 (NoDup_count_occ String.string_dec l) Hn x) as Hle.
  apply list_elem_of_In in Hx.
  pose proof (proj1 (count_occ_In String.string_dec l x) Hx) as Hgt. lia.
Qed.




(** ** The shipped rules return on the stores the callers build *)

(** Rules that evaluate and act without raising on every store of a class
    closed under their actions make the run return. *)
Lemma sweep_returns (I : FactBase → Prop) rs st any :
  (∀ r g, r ∈ rs → I g →
     ∃ b, when r g = Ok b ∧ (b = true → ∃ g', then_ r g = Ok g' ∧ I g')) →
  I (st_facts st) →
  ∃ st' any', sweep rs st any = Ok (st', any') ∧ I (st_facts st').
Proof.
  revert st any. induction rs as [|r rs IH]; intros st any Hok Hst; simpl; [eauto|].
  assert (∀ r0 g, r0 ∈ rs → I g →
            ∃ b, when r0 g = Ok b ∧ (b = true → ∃ g', then_ r0 g = Ok g' ∧ I g'))
    as Hok' by (intros r0 g Hr0; apply Hok; by apply list_elem_of_further).
  case_decide; [by apply IH|].
  destruct (Hok r (st_facts st) (list_elem_of_here _ _) Hst) as (b & -> & Hb).
  destruct b; simpl; [|by apply IH].
  destruct (Hb eq_refl) as (g' & -> & Hg'). simpl. by apply IH.
Qed.

Lemma loops_returns (I : FactBase → Prop) n rs st :
  (∀ r g, r ∈ rs → I g →
     ∃ b, when r g = Ok b ∧ (b = true → ∃ g', then_ r g = Ok g' ∧ I g')) →
  I (st_facts st) →
  ∃ st', loops n rs st = Ok st' ∧ I (st_facts st').
Proof.
  intros Hok. revert st. induction n as [|n IH]; intros st Hst; simpl; [eauto|].
  destruct (sweep_returns I rs st false Hok Hst) as (st1 & any1 & -> & Hst1). simpl.
  destruct any1; [by apply IH | eauto].
Qed.

(** * Further properties *)

(** ** Fixed points of a run *)

Lemma sweep_cons_skip r rs st any :
  name r ∉ st_fired st → when r (st_facts st) = Ok false →
  sweep (r :: rs) st any = sweep rs st any.
Proof. intros Hr Hw. simpl. rewrite decide_False by done. by rewrite Hw. Qed.

Lemma sweep_cons_raise r rs st any e :
  name r ∉ st_fired st → when r (st_facts st) = Raise e →
  sweep (r :: rs) st any = Raise e.
Proof. intros Hr Hw. simpl. rewrite decide_False by done. by rewrite Hw. Qed.

(** A sweep that fires nothing leaves the state as it was, and found every
    rule either fired already or with a false condition. *)
Lemma sweep_no_fire rs st st' :
  sweep rs st false = Ok (st', false) →
  st' = st ∧ ∀ r, r ∈ rs → name r ∈ st_fired st ∨ when r (st_facts st) = Ok false.
Proof.
  induction rs as [|r rs IH]; simpl.
  - intros [= <-]. split; [done|]. intros r Hr. by apply elem_of_nil in Hr.
  - case_decide as Hin.
    { intros H. destruct (IH H) as [-> Hall]. split; [done|].
      intros r0 [->|Hr0]%elem_of_cons; [by left | by apply Hall]. }
    destruct (when r (st_facts st)) as [[]|e] eqn:Hw; simpl; [| |done].
    + destruct (then_ r (st_facts st)) as [g|e]; simpl; [|done].
      intros H. by apply sweep_any_true in H.
    + intros H. destruct (IH H) as [-> Hall]. split; [done|].
      intros r0 [->|Hr0]%elem_of_cons; [by right | by apply Hall].
Qed.

(** Conversely, such a state is left alone by a sweep. *)
Lemma sweep_noop rs st any :
  (∀ r, r ∈ rs → name r ∈ st_fired st ∨ when r (st_facts st) = Ok false) →
  sweep rs st any = Ok (st, any).
Proof.
  induction rs as [|r rs IH]; intros Hall; simpl; [done|].
  assert (sweep rs st any = Ok (st, any)) as Hrs.
  { apply IH. intros r0 Hr0. apply Hall. by apply list_elem_of_further. }
  case_decide as Hin; [done|].
  destruct (Hall r (list_elem_of_here _ _)) as [?|Hw]; [done|]. by rewrite Hw.
Qed.

Lemma loops_hist_fixed n rs st log sw st' log' sw' :
  Forall (λ b, b = true) sw →
  loops_hist n rs st log sw = Ok (st', log', sw') →
  last sw' = Some false →
  ∀ r, r ∈ rs → name r ∈ st_fired st' ∨ when r (st_facts st') = Ok false.
Proof.
  revert st log sw. induction n as [|n IH]; intros st log sw Hsw; simpl.
  - intros [= <- <- <-] Hl. apply last_Some in Hl as [sw0 ->].
    rewrite Forall_app, Forall_singleton in Hsw. by destruct Hsw.
  - intros H Hl. apply bind_Ok in H as ([[st1 any1] log1] & Hs & H).
    destruct any1.
    + eapply IH; [|exact H|exact Hl]. by rewrite Forall_app, Forall_singleton.
    + injection H as <- <- <-.
      pose proof (sweep_hist_erase rs st false log) as He. rewrite Hs in He.
      simpl in He. by destruct (sweep_no_fire _ _ _ He) as [-> Hall].
Qed.

(** X1: a run that ended on a sweep firing nothing has reached a fixed point:
    on the returned store no rule is eligible that has not fired. *)
Theorem fixed_point_no_rule_eligible
  (ls : gset string → list string) (f : FactBase) (rs : list Rule) (n : Z)
  (res : InferenceResult) :
  (∀ X, ls X ≡ₚ elements X) →
  forward_chain ls f rs n = Ok res →
  last (sweep_flags f rs n) = Some false →
  ∀ r, r ∈ rs → name r ∈ fired_rules res ∨ when r (facts res) = Ok false.
Proof.
  intros Hls H Hl r Hr.
  apply forward_chain_run in H as (st & log & sw & Hrun & -> & _ & Hsw).
  rewrite Hsw in Hl. simpl.
  destruct (loops_hist_fixed _ _ _ _ _ _ _ _ (Forall_nil_2 _) Hrun Hl r Hr) as [Hin|Hw];
    [left; by apply enum_perm_elem | by right].
Qed.

Lemma fixed_point_no_rule_eligible_witness :
  ∃ res, forward_chain elements scenario1 shipped_rules 20 = Ok res ∧
    last (sweep_flags scenario1 shipped_rules 20) = Some false ∧
    ∀ r, r ∈ shipped_rules →
      name r ∈ fired_rules res ∨ when r (facts res) = Ok false.
Proof.
  eexists. split; [vm_compute; reflexivity|]. split; [vm_compute; reflexivity|].
  apply (fixed_point_no_rule_eligible elements scenario1 shipped_rules 20);
    [exact elements_enumerates | vm_compute; reflexivity | vm_compute; reflexivity].
Defined.

Lemma rules_names_NoDup str_of capitalize :
  NoDup (name <$> rules str_of capitalize).
Proof. apply (bool_decide_unpack _). vm_compute. exact I. Qed.

Lemma rule_inj str_of capitalize r r' :
  r ∈ rules str_of capitalize → r' ∈ rules str_of capitalize →
  name r = name r' → r = r'.
Proof.
  intros [i Hi]%list_elem_of_lookup [j Hj]%list_elem_of_lookup Heq.
  assert (i = j) as ->; [|congruence].
  eapply NoDup_lookup; [apply (rules_names_NoDup str_of capitalize)| |];
    rewrite list_lookup_fmap.
  - by rewrite Hi.
  - rewrite Hj. simpl. by rewrite Heq.
Qed.

Lemma rules_cases str_of capitalize r :
  r ∈ rules str_of capitalize ↔
  r ∈ pre_rules ∨ r = D1_COMPUTE_BEST_MOVE ∨ r ∈ post_rules str_of capitalize.
Proof. by rewrite rules_split, elem_of_app, elem_of_cons. Qed.

(** The rules declared before D1 do not read the best move. *)
Lemma pre_when_ignores_best r g b :
  r ∈ pre_rules → when r (<["best_move" := b]> g) = when r g.
Proof.
  unfold pre_rules. intros Hr. repeat (apply elem_of_cons in Hr as [->|Hr]);
    [.. | by apply elem_of_nil in Hr];
    unfold_rules; unfold_reads; rewrite ?lookup_insert_ne by done; done.
Qed.

Lemma pre_when_settled r f :
  r ∈ pre_rules → when r (settled f) = when r f.
Proof.
  intros Hr. unfold settled. destruct (when D1_COMPUTE_BEST_MOVE f) as [[]|e]; [|done..].
  by apply pre_when_ignores_best.
Qed.

(** The first sweep of a run of the shipped rules, rule by rule: D1 fires
    exactly when it is eligible on the initial store, any other rule exactly
    when its condition holds on the settled store. *)
Lemma kb_sweep_exact str_of capitalize f st1 any1 :
  sweep (rules str_of capitalize) (init_state f) false = Ok (st1, any1) →
  same_but_recos (settled f) (st_facts st1) ∧
  ("D1_COMPUTE_BEST_MOVE" ∈ st_fired st1 ↔ when D1_COMPUTE_BEST_MOVE f = Ok true) ∧
  ("D1_COMPUTE_BEST_MOVE" ∈ st_fired st1 ∨ when D1_COMPUTE_BEST_MOVE f = Ok false) ∧
  (∀ r, r ∈ rules str_of capitalize → name r ≠ "D1_COMPUTE_BEST_MOVE" →
     (name r ∈ st_fired st1 ↔ when r (settled f) = Ok true) ∧
     (name r ∈ st_fired st1 ∨ when r (settled f) = Ok false)).
Proof.
  intros H. rewrite rules_split, sweep_app in H.
  apply bind_Ok in H as ([sta anya] & Ha & H). cbn [fst snd] in H.
  assert (∀ r, r ∈ pre_rules → r ∈ rules str_of capitalize) as Hpre
    by (intros r Hr; apply rules_cases; by left).
  assert (∀ r, r ∈ post_rules str_of capitalize → r ∈ rules str_of capitalize) as Hpost
    by (intros r Hr; apply rules_cases; by right; right).
  assert (D1_COMPUTE_BEST_MOVE ∈ rules str_of capitalize) as Hd1in
    by (apply rules_cases; by right; left).
  destruct (sweep_inv (λ st, same_but_recos f (st_facts st))
              pre_rules (init_state f) false sta anya
              ltac:(intros r st0 g' Hr Hs _ _ Ht; simpl;
                    destruct (rule_then_spec _ _ _ _ _ (Hpre r Hr) Ht)
                      as [(_ & l & ->)|(Hn & _)];
                    [by apply same_but_recos_insert
                    |by destruct (pre_rules_names r Hr)])
              (same_but_recos_refl f) Ha)
    as (Hsa & _ & _ & Halla & Hfa).
  assert (∀ x, x ∈ st_fired sta →
            ∃ r, r ∈ pre_rules ∧ name r = x ∧ when r f = Ok true) as Hfa'.
  { intros x Hx. destruct (Hfa x Hx) as [Hx0|(r & st0 & Hr & Hn & Hs0 & Hw)].
    - by apply not_elem_of_empty in Hx0.
    - exists r. split_and!; [done..|].
      by rewrite <- (when_same_but_recos _ _ _ _ _ (Hpre r Hr) Hs0). }
  assert ("D1_COMPUTE_BEST_MOVE" ∉ st_fired sta) as Hna.
  { intros Hin. destruct (Hfa' _ Hin) as (r & Hr & Hn & _).
    by destruct (pre_rules_names r Hr). }
  (* D1 *)
  assert (∃ stb anyb,
            sweep (post_rules str_of capitalize) stb anyb = Ok (st1, any1) ∧
            same_but_recos (settled f) (st_facts stb) ∧
            st_fired sta ⊆ st_fired stb ∧
            ("D1_COMPUTE_BEST_MOVE" ∈ st_fired stb ↔
               when D1_COMPUTE_BEST_MOVE f = Ok true) ∧
            ("D1_COMPUTE_BEST_MOVE" ∈ st_fired stb ∨
               when D1_COMPUTE_BEST_MOVE f = Ok false) ∧
            (∀ x, x ∈ st_fired stb → x = "D1_COMPUTE_BEST_MOVE" ∨ x ∈ st_fired sta))
    as (stb & anyb & Hb & Hsb & Hsubb & Hd1iff & Hd1or & Hfb).
  { pose proof (when_same_but_recos _ _ _ _ _ Hd1in Hsa) as Hwd.
    unfold settled. destruct (when D1_COMPUTE_BEST_MOVE f) as [[]|e] eqn:Hd1.
    - rewrite sweep_cons_fire in H by done.
      apply bind_Ok in H as (gb & Htb & H).
      pose proof Htb as Htb'. cbn [then_ D1_COMPUTE_BEST_MOVE] in Htb'.
      apply bind_Ok in Htb' as (b & Hcb & [= <-]).
      rewrite (compute_same_but_recos _ _ Hsa) in Hcb.
      eexists _, _. split; [exact H|]. cbn [st_facts st_fired fire name D1_COMPUTE_BEST_MOVE].
      split_and!.
      + unfold with_best, derived_best. rewrite Hcb. by apply same_but_recos_best.
      + apply union_subseteq_r.
      + split; [done|]. intros _. by apply elem_of_union_l, elem_of_singleton.
      + left. by apply elem_of_union_l, elem_of_singleton.
      + intros x [Hx|Hx]%elem_of_union; [left; by apply elem_of_singleton in Hx | by right].
    - rewrite sweep_cons_skip in H by done.
      exists sta, anya. split_and!; [done | done | done | | by right | by right].
      split; [done|]. intros [=].
    - rewrite (sweep_cons_raise _ _ _ _ e) in H by done. discriminate. }
  destruct (sweep_inv (λ st, same_but_recos (settled f) (st_facts st))
              (post_rules str_of capitalize) stb anyb st1 any1
              ltac:(intros r st0 g' Hr Hs _ _ Ht; simpl;
                    destruct (rule_then_spec _ _ _ _ _ (Hpost r Hr) Ht)
                      as [(_ & l & ->)|(Hn & _)];
                    [by apply same_but_recos_insert
                    |by destruct (post_rules_names _ _ r Hr)])
              Hsb Hb)
    as (Hs1 & Hsub1 & _ & Hall1 & Hf1).
  assert (∀ r, r ∈ rules str_of capitalize → name r ≠ "D1_COMPUTE_BEST_MOVE" →
            name r ∈ st_fired st1 ∨ when r (settled f) = Ok false) as Hor.
  { intros r Hr Hn. apply rules_cases in Hr as [Hr|[->|Hr]]; [| done |].
    - destruct (Halla r Hr) as [Hin|(st0 & Hs0 & Hw0)].
      + left. by apply Hsub1, Hsubb.
      + right. rewrite (pre_when_settled r f Hr).
        by rewrite <- (when_same_but_recos _ _ _ _ _ (Hpre r Hr) Hs0).
    - destruct (Hall1 r Hr) as [Hin|(st0 & Hs0 & Hw0)]; [by left|].
      right. by rewrite <- (when_same_but_recos _ _ _ _ _ (Hpost r Hr) Hs0). }
  split_and!; [done | | | ].
  - split.
    + intros Hin. destruct (Hf1 _ Hin) as [Hinb|(r & st0 & Hr & Hn & _)].
      * by apply Hd1iff.
      * by destruct (post_rules_names _ _ r Hr).
    + intros Hw. by apply Hsub1, Hd1iff.
  - destruct Hd1or as [Hin|Hw]; [left; by apply Hsub1 | by right].
  - intros r Hr Hn. split; [|by apply Hor]. split.
    + intros Hin. destruct (Hf1 _ Hin) as [Hinb|(r' & st0 & Hr' & Hn' & Hs0 & Hw0)].
      * destruct (Hfb _ Hinb) as [?|Hina]; [done|].
        destruct (Hfa' _ Hina) as (r' & Hr' & Hn' & Hw').
        assert (r' = r) as -> by (eapply rule_inj; eauto).
        by rewrite (pre_when_settled r f Hr').
      * assert (r' = r) as -> by (eapply rule_inj; eauto).
        by rewrite <- (when_same_but_recos _ _ _ _ _ (Hpost r Hr') Hs0).
    + intros Hw. destruct (Hor r Hr Hn) as [?|Hw']; [done|congruence].
Qed.

Lemma loops_S rs st n :
  loops (S n) rs st =
  sweep rs st false ≫= λ out : engine_state * bool,
    if out.2 then loops n rs out.1 else Ok out.1.
Proof. simpl. by destruct (sweep rs st false) as [[st' []]|]. Qed.

Lemma loops_settled rs st n :
  sweep rs st false = Ok (st, false) → loops n rs st = Ok st.
Proof. intros H. destruct n; [done|]. by rewrite loops_S, H. Qed.

Lemma loops_hist_S rs st log sw n :
  loops_hist (S n) rs st log sw =
  sweep_hist rs st false log ≫= λ out : engine_state * bool * list Rule,
    if out.1.2 then loops_hist n rs out.1.1 out.2 (sw ++ [true])
    else Ok (out.1.1, out.2, sw ++ [false]).
Proof. simpl. by destruct (sweep_hist rs st false log) as [[[st' []] log']|]. Qed.

(** After the first sweep of the shipped rules another sweep fires nothing. *)
Lemma kb_second_sweep str_of capitalize f st1 any1 any :
  sweep (rules str_of capitalize) (init_state f) false = Ok (st1, any1) →
  sweep (rules str_of capitalize) st1 any = Ok (st1, any).
Proof.
  intros H. destruct (kb_sweep_exact _ _ _ _ _ H) as (Hs1 & _ & Hd1or & Hall).
  apply sweep_noop. intros r Hr.
  rewrite (when_same_but_recos _ _ _ _ _ Hr Hs1).
  destruct (decide (name r = "D1_COMPUTE_BEST_MOVE")) as [Hn|Hn].
  - rewrite (rule_named_D1 _ _ _ Hr Hn). destruct Hd1or as [?|Hw]; [by left|].
    right. unfold settled. by rewrite Hw.
  - by apply Hall.
Qed.

Lemma kb_loops_one str_of capitalize f k :
  loops (S k) (rules str_of capitalize) (init_state f) =
  loops 1 (rules str_of capitalize) (init_state f).
Proof.
  rewrite loops_S, loops_one.
  destruct (sweep (rules str_of capitalize) (init_state f) false)
    as [[st1 any1]|e] eqn:Hs; [|done].
  cbn [mbind result_bind fst snd]. destruct any1; [|done].
  apply loops_settled. by eapply kb_second_sweep.
Qed.

Lemma sweep_hist_Ok rs st any log st' any' log' :
  sweep_hist rs st any log = Ok (st', any', log') → sweep rs st any = Ok (st', any').
Proof. intros H. by rewrite (sweep_hist_erase rs st any log), H. Qed.

Lemma sweep_Ok_hist rs st any log st' any' :
  sweep rs st any = Ok (st', any') →
  ∃ log', sweep_hist rs st any log = Ok (st', any', log').
Proof.
  rewrite (sweep_hist_erase rs st any log).
  destruct (sweep_hist rs st any log) as [[[st2 any2] log2]|e]; [|done].
  intros [= -> ->]. eauto.
Qed.

Lemma kb_flags str_of capitalize f k st log sw :
  loops_hist k (rules str_of capitalize) (init_state f) [] [] = Ok (st, log, sw) →
  (length sw ≤ 2)%nat.
Proof.
  destruct k as [|k]; [by intros [= _ _ <-]; simpl; lia|].
  rewrite loops_hist_S. intros H.
  apply bind_Ok in H as ([[st1 any1] log1] & Hs & H). cbn [fst snd] in H.
  destruct any1; [|injection H as _ _ <-; simpl; lia].
  destruct k as [|k]; [injection H as _ _ <-; simpl; lia|].
  rewrite loops_hist_S in H.
  apply sweep_hist_Ok in Hs.
  destruct (sweep_Ok_hist _ _ _ log1 _ _ (kb_second_sweep _ _ _ _ _ false Hs))
    as [log2 H2].
  rewrite H2 in H. cbn [mbind result_bind fst snd] in H.
  injection H as _ _ <-. simpl. lia.
Qed.

Lemma kb_forward_chain_one str_of capitalize ls f n :
  (1 <= n)%Z →
  forward_chain ls f (rules str_of capitalize) n =
    forward_chain ls f (rules str_of capitalize) 1.
Proof.
  intros Hn. unfold forward_chain. destruct (Z.to_nat n) as [|k] eqn:Hk; [lia|].
  change (Z.to_nat 1) with 1%nat. by rewrite kb_loops_one.
Qed.

(** X2: the shipped rules settle in their first sweep: a run with any
    [max_loops >= 1] returns what the run with [max_loops = 1] returns, and
    performs at most two sweeps. *)
Theorem shipped_rules_settle_in_first_sweep
  (str_of : value → string) (capitalize : string → string)
  (ls : gset string → list string) (f : FactBase) (n : Z) :
  (1 <= n)%Z →
  forward_chain ls f (rules str_of capitalize) n =
    forward_chain ls f (rules str_of capitalize) 1 ∧
  (length (sweep_flags f (rules str_of capitalize) n) ≤ 2)%nat.
Proof.
  intros Hn. split.
  - by apply kb_forward_chain_one.
  - unfold sweep_flags, run_hist.
    destruct (loops_hist _ _ _ _ _) as [[[st log] sw]|e] eqn:H; [|simpl; lia].
    by eapply kb_flags.
Qed.

Lemma shipped_rules_settle_in_first_sweep_witness :
  (1 <= 20)%Z ∧
  forward_chain elements scenario3 shipped_rules 20 =
    forward_chain elements scenario3 shipped_rules 1 ∧
  (length (sweep_flags scenario3 shipped_rules 20) ≤ 2)%nat.
Proof.
  split; [lia|].
  apply (shipped_rules_settle_in_first_sweep show capitalize_ascii elements
           scenario3 20).
  lia.
Defined.

Lemma forward_chain_one ls f rs res :
  forward_chain ls f rs 1 = Ok res →
  ∃ st1 any1, sweep rs (init_state f) false = Ok (st1, any1) ∧
    res = {| facts := st_facts st1; fired_rules := ls (st_fired st1);
             trace := st_trace st1 |}.
Proof.
  unfold forward_chain. intros H. apply bind_Ok in H as (st1 & Hl & [= <-]).
  change (Z.to_nat 1) with 1%nat in Hl. rewrite loops_one in Hl.
  apply bind_Ok in Hl as ([st1' any1] & Hs & [= <-]). eauto.
Qed.

Lemma kb_fired_decided str_of capitalize ls f n res :
  (∀ X, ls X ≡ₚ elements X) →
  (1 <= n)%Z →
  forward_chain ls f (rules str_of capitalize) n = Ok res →
  same_but_recos (settled f) (facts res) ∧
  ("D1_COMPUTE_BEST_MOVE" ∈ fired_rules res ↔
     when D1_COMPUTE_BEST_MOVE f = Ok true) ∧
  (∀ r, r ∈ rules str_of capitalize → name r ≠ "D1_COMPUTE_BEST_MOVE" →
     (name r ∈ fired_rules res ↔ when r (settled f) = Ok true)).
Proof.
  intros Hls Hn Hres.
  rewrite (kb_forward_chain_one _ _ ls f n Hn) in Hres.
  apply forward_chain_one in Hres as (st1 & any1 & Hs & ->).
  destruct (kb_sweep_exact _ _ _ _ _ Hs) as (Hs1 & Hd1 & _ & Hall).
  cbn [facts fired_rules]. split_and!; [done | |].
  - by rewrite (enum_perm_elem ls _ _ Hls).
  - intros r Hr Hne. rewrite (enum_perm_elem ls _ _ Hls). by apply Hall.
Qed.

(** X3: which rules fire in a run of the shipped rules is decided by the
    initial store alone: D1 fires exactly when it is eligible on it, and any
    other rule exactly when its condition holds on the settled store (the
    initial store, with its best move when D1 is eligible); the returned
    store is that store with the recommendations. *)
Theorem fired_rules_decided_by_initial_store
  (str_of : value → string) (capitalize : string → string)
  (ls : gset string → list string) (f : FactBase) (n : Z) (res : InferenceResult) :
  (∀ X, ls X ≡ₚ elements X) →
  (1 <= n)%Z →
  forward_chain ls f (rules str_of capitalize) n = Ok res →
  same_but_recos (settled f) (facts res) ∧
  ("D1_COMPUTE_BEST_MOVE" ∈ fired_rules res ↔
     when D1_COMPUTE_BEST_MOVE f = Ok true) ∧
  (∀ r, r ∈ rules str_of capitalize → name r ≠ "D1_COMPUTE_BEST_MOVE" →
     (name r ∈ fired_rules res ↔ when r (settled f) = Ok true)).
Proof.
  intros Hls Hn Hres.
  by apply (kb_fired_decided str_of capitalize ls f n res).
Qed.

Lemma fired_rules_decided_by_initial_store_witness :
  ∃ res, forward_chain elements scenario3 shipped_rules 20 = Ok res ∧
    same_but_recos (settled scenario3) (facts res) ∧
    ("D1_COMPUTE_BEST_MOVE" ∈ fired_rules res ↔
       when D1_COMPUTE_BEST_MOVE scenario3 = Ok true) ∧
    (∀ r, r ∈ shipped_rules → name r ≠ "D1_COMPUTE_BEST_MOVE" →
       (name r ∈ fired_rules res ↔ when r (settled scenario3) = Ok true)).
Proof.
  eexists. split; [vm_compute; reflexivity|].
  apply (fired_rules_decided_by_initial_store show capitalize_ascii elements
           scenario3 20);
    [exact elements_enumerates | lia | vm_compute; reflexivity].
Defined.

Lemma and_then_true a b : a &? b = Ok true → a = Ok true ∧ b = Ok true.
Proof. destruct a as [[]|e]; simpl; [done | discriminate..]. Qed.

Lemma py_compare_lit_num op v c :
  py_compare op v (VNum c) = Ok true →
  ∃ q, num_of v = Some q ∧ cmp_holds op (q ?= c)%Q = true.
Proof.
  destruct v as [|[]|q| |s|l|d]; simpl; try discriminate; intros [= Hc]; eauto.
Qed.

Lemma py_compare_num_lit op v c :
  py_compare op (VNum c) v = Ok true →
  ∃ q, num_of v = Some q ∧ cmp_holds op (c ?= q)%Q = true.
Proof.
  destruct v as [|[]|q| |s|l|d]; simpl; try discriminate; intros [= Hc]; eauto.
Qed.

(** The conditions of R6, R7 and R8 read the effectiveness of the best move
    as a number and place it in three disjoint ranges. *)
Lemma tier_conditions str_of g :
  (when (R6_USE_SUPER_EFFECTIVE str_of) g = Ok true →
   ∃ v q, best_move_field g "eff" = Ok v ∧ num_of v = Some q ∧ (2 <= q)%Q) ∧
  (when (R7_USE_NEUTRAL_BEST str_of) g = Ok true →
   ∃ v q, best_move_field g "eff" = Ok v ∧ num_of v = Some q ∧
     (0.5 < q)%Q ∧ (q < 2)%Q) ∧
  (when R8_SWITCH_IF_ALL_RESISTED g = Ok true →
   ∃ v q, best_move_field g "eff" = Ok v ∧ num_of v = Some q ∧ (q <= 0.5)%Q).
Proof.
  unfold_rules. unfold best_eff_cmp. split_and!.
  - intros [_ H]%and_then_true. apply bind_Ok in H as (v & Hv & H).
    apply py_compare_lit_num in H as (q & Hq & Hc).
    apply cmp_ge in Hc. eauto.
  - intros [_ H]%and_then_true. apply bind_Ok in H as (v & Hv & H).
    apply and_then_true in H as [H1 H2].
    apply py_compare_num_lit in H1 as (q & Hq & Hc1).
    apply py_compare_lit_num in H2 as (q' & Hq' & Hc2).
    assert (q' = q) as -> by congruence.
    apply cmp_lt in Hc1, Hc2. eauto 6.
  - intros [_ [H _]%and_then_true]%and_then_true. apply bind_Ok in H as (v & Hv & H).
    apply py_compare_lit_num in H as (q & Hq & Hc).
    apply cmp_le in Hc. eauto.
Qed.

Lemma no_rule_fires_without_sweep ls f rs n res :
  (∀ X, ls X ≡ₚ elements X) → (n < 1)%Z →
  forward_chain ls f rs n = Ok res → ∀ x, x ∉ fired_rules res.
Proof.
  intros Hls Hn H x. unfold forward_chain in H.
  replace (Z.to_nat n) with 0%nat in H by lia. injection H as <-. simpl.
  rewrite (enum_perm_elem ls _ _ Hls). apply not_elem_of_empty.
Qed.

(** X4: in every run of the shipped rules at most one of R6, R7 and R8 fires. *)
Theorem tier_rules_mutually_exclusive
  (str_of : value → string) (capitalize : string → string)
  (ls : gset string → list string) (f : FactBase) (n : Z) (res : InferenceResult) :
  (∀ X, ls X ≡ₚ elements X) →
  forward_chain ls f (rules str_of capitalize) n = Ok res →
  ¬ ("R6_USE_SUPER_EFFECTIVE" ∈ fired_rules res ∧
     "R7_USE_NEUTRAL_BEST" ∈ fired_rules res) ∧
  ¬ ("R6_USE_SUPER_EFFECTIVE" ∈ fired_rules res ∧
     "R8_SWITCH_IF_ALL_RESISTED" ∈ fired_rules res) ∧
  ¬ ("R7_USE_NEUTRAL_BEST" ∈ fired_rules res ∧
     "R8_SWITCH_IF_ALL_RESISTED" ∈ fired_rules res).
Proof.
  intros Hls Hres.
  destruct (Z_lt_le_dec n 1) as [Hn|Hn].
  { pose proof (no_rule_fires_without_sweep _ _ _ _ _ Hls Hn Hres) as H0.
    split_and!; intros [H _]; by apply H0 in H. }
  destruct (kb_fired_decided _ _ _ _ _ _ Hls Hn Hres)
    as (_ & _ & Hall).
  assert (R6_USE_SUPER_EFFECTIVE str_of ∈ rules str_of capitalize) as H6in
    by (unfold rules; do 6 apply list_elem_of_further; apply list_elem_of_here).
  assert (R7_USE_NEUTRAL_BEST str_of ∈ rules str_of capitalize) as H7in
    by (unfold rules; do 7 apply list_elem_of_further; apply list_elem_of_here).
  assert (R8_SWITCH_IF_ALL_RESISTED ∈ rules str_of capitalize) as H8in
    by (unfold rules; do 8 apply list_elem_of_further; apply list_elem_of_here).
  pose proof (Hall _ H6in ltac:(done)) as H6.
  pose proof (Hall _ H7in ltac:(done)) as H7.
  pose proof (Hall _ H8in ltac:(done)) as H8.
  cbn [name R6_USE_SUPER_EFFECTIVE R7_USE_NEUTRAL_BEST R8_SWITCH_IF_ALL_RESISTED]
    in H6, H7, H8.
  destruct (tier_conditions str_of (settled f)) as (T6 & T7 & T8).
  split_and!; intros [Ha Hb].
  - apply H6, T6 in Ha as (v & q & Hv & Hq & Hle).
    apply H7, T7 in Hb as (v' & q' & Hv' & Hq' & _ & Hlt).
    assert (q' = q) as -> by congruence. by eapply Qlt_not_le.
  - apply H6, T6 in Ha as (v & q & Hv & Hq & Hle).
    apply H8, T8 in Hb as (v' & q' & Hv' & Hq' & Hle').
    assert (q' = q) as -> by congruence.
    eapply (Qlt_not_le 0.5 2); [reflexivity|]. by eapply Qle_trans.
  - apply H7, T7 in Ha as (v & q & Hv & Hq & Hlt & _).
    apply H8, T8 in Hb as (v' & q' & Hv' & Hq' & Hle').
    assert (q' = q) as -> by congruence. by eapply Qlt_not_le.
Qed.

Lemma tier_rules_mutually_exclusive_witness :
  ∃ res, forward_chain elements scenario3 shipped_rules 20 = Ok res ∧
    "R6_USE_SUPER_EFFECTIVE" ∈ fired_rules res ∧
    ¬ ("R6_USE_SUPER_EFFECTIVE" ∈ fired_rules res ∧
       "R7_USE_NEUTRAL_BEST" ∈ fired_rules res).
Proof.
  eexists. split; [vm_compute; reflexivity|].
  split; [vm_compute; set_solver|].
  apply (tier_rules_mutually_exclusive show capitalize_ascii elements
           scenario3 20);
    [exact elements_enumerates | vm_compute; reflexivity].
Defined.

Lemma rules_nth str_of capitalize i r :
  rules str_of capitalize !! i = Some r → r ∈ rules str_of capitalize.
Proof. intros H. apply list_elem_of_lookup. eauto. Qed.

(** X5: without candidate moves (the key missing or the list empty) and
    without a best move in the store, a run of the shipped rules fires
    R15 and none of the rules about moves (D1, R6, R7, R8, R12, R13, R14),
    and the returned store has no best move. *)
Theorem no_moves_run
  (str_of : value → string) (capitalize : string → string)
  (ls : gset string → list string) (f : FactBase) (n : Z) (res : InferenceResult) :
  (∀ X, ls X ≡ₚ elements X) →
  f !! "best_move" = None →
  fact_get f "my_moves" (VList []) = VList [] →
  (1 <= n)%Z →
  forward_chain ls f (rules str_of capitalize) n = Ok res →
  "R15_NO_MOVES_INFO" ∈ fired_rules res ∧
  facts res !! "best_move" = None ∧
  ∀ x, x ∈ ["D1_COMPUTE_BEST_MOVE"; "R6_USE_SUPER_EFFECTIVE"; "R7_USE_NEUTRAL_BEST";
            "R8_SWITCH_IF_ALL_RESISTED"; "R12_ATTACK_IF_FASTER_AND_OK_HP";
            "R13_STRONG_PRESSURE_IF_FASTER_SUPER_EFFECTIVE";
            "R14_NO_GOOD_MOVES_WARNING"] →
       x ∉ fired_rules res.
Proof.
  intros Hls Hnb Hm Hn Hres.
  destruct (kb_fired_decided _ _ _ _ _ _ Hls Hn Hres)
    as (Hs & Hd1 & Hall).
  assert (when D1_COMPUTE_BEST_MOVE f = Ok false) as Hwd.
  { unfold_rules. unfold fact_nonempty. rewrite Hm.
    by rewrite bool_decide_eq_true_2 by done. }
  assert (settled f = f) as Hset by (unfold settled; by rewrite Hwd).
  rewrite Hset in Hs, Hall.
  assert (best_move_known f = Ok false) as Hbk.
  { unfold best_move_known, fact_get. by rewrite Hnb. }
  assert (∀ i r, rules str_of capitalize !! i = Some r →
            name r ≠ "D1_COMPUTE_BEST_MOVE" →
            when r f ≠ Ok true → name r ∉ fired_rules res) as Hnot.
  { intros i r Hi Hne Hw Hin. apply Hw. by apply (Hall r (rules_nth _ _ _ _ Hi)). }
  split_and!.
  - apply (Hall R15_NO_MOVES_INFO (rules_nth _ _ 15%nat _ eq_refl)); [done|].
    unfold_rules. unfold fact_empty. by rewrite Hm.
  - by rewrite (same_but_recos_lookup _ _ _ Hs).
  - intros x Hx. repeat (apply elem_of_cons in Hx as [->|Hx]);
      [| | | | | | | by apply elem_of_nil in Hx].
    + rewrite Hd1, Hwd. discriminate.
    + apply (Hnot 6%nat _ eq_refl); [done|]. unfold_rules. by rewrite Hbk.
    + apply (Hnot 7%nat _ eq_refl); [done|]. unfold_rules. by rewrite Hbk.
    + apply (Hnot 8%nat _ eq_refl); [done|]. unfold_rules. by rewrite Hbk.
    + apply (Hnot 12%nat _ eq_refl); [done|]. unfold_rules.
      intros [_ [_ [H _]%and_then_true]%and_then_true]%and_then_true. congruence.
    + apply (Hnot 13%nat _ eq_refl); [done|]. unfold_rules.
      intros [_ [_ [_ [H _]%and_then_true]%and_then_true]%and_then_true]%and_then_true.
      congruence.
    + apply (Hnot 14%nat _ eq_refl); [done|]. unfold_rules.
      unfold fact_nonempty at 1. by rewrite Hm.
Qed.

Lemma no_moves_run_witness :
  ∃ res, forward_chain elements scenario1 shipped_rules 20 = Ok res ∧
    scenario1 !! "best_move" = None ∧
    fact_get scenario1 "my_moves" (VList []) = VList [] ∧
    "R15_NO_MOVES_INFO" ∈ fired_rules res ∧
    facts res !! "best_move" = None.
Proof.
  eexists. split; [vm_compute; reflexivity|].
  split; [vm_compute; reflexivity|]. split; [vm_compute; reflexivity|].
  pose proof (no_moves_run show capitalize_ascii elements scenario1 20 _
                elements_enumerates ltac:(vm_compute; reflexivity)
                ltac:(vm_compute; reflexivity) ltac:(lia)
                ltac:(vm_compute; reflexivity)) as (H15 & Hb & _).
  split; [exact H15 | exact Hb].
Defined.

(** ** Stores as [main()] builds them *)

Lemma is_move_move nm ty pw ef sc : is_move (move nm ty pw ef sc).
Proof. by exists nm, nm, (VStr ty), pw, ef, sc. Qed.

Lemma is_move_scored m : is_move m → scored m.
Proof. intros (nm & ident & ty & pw & ef & sc & ->). by exists sc. Qed.

Lemma score_below_30_move nm ident ty pw ef sc :
  score_below_30 (move_record nm ident ty pw ef sc)
  = Ok (cmp_holds OpLt (sc ?= 30)%Q).
Proof. reflexivity. Qed.

Lemma py_all_scores_ok ms :
  Forall is_move ms → ∃ b, py_all score_below_30 ms = Ok b.
Proof.
  induction 1 as [|m ms (nm & ident & ty & pw & ef & sc & ->) _ [b IH]]; [by exists true|].
  cbn [py_all]. rewrite score_below_30_move. cbn [mbind result_bind].
  destruct (cmp_holds OpLt (sc ?= 30)%Q); eauto.
Qed.

Ltac ok_step :=
  match goal with
  | |- ∃ b, Ok _ = Ok b => by eexists
  | |- context [if ?c then _ else _] => destruct c eqn:?
  | |- context [match ?l with [] => _ | _ :: _ => _ end] => destruct l
  end.

Lemma wf_when_ok str_of capitalize r g :
  r ∈ rules str_of capitalize → wf_store g → ∃ b, when r g = Ok b.
Proof.
  intros Hr ([hp Hhp] & [ehp Hehp] & (ms & Hms & Hall) & Hbest & [mt Hmt] &
             [et Het] & [mp Hmp] & [ep Hep] & Hrec).
  destruct (py_all_scores_ok ms Hall) as [ball Hball].
  each_rule Hr; unfold_rules; unfold_reads;
    rewrite ?Hhp, ?Hehp, ?Hms, ?Hmt, ?Het, ?Hmp, ?Hep;
    (destruct Hbest as [Hb | (b & Hb & (nm & ident & ty & pw & ef & sc & ->))]; rewrite ?Hb);
    cbn -[cmp_holds Qcompare truthy py_eq py_all]; rewrite ?Hball;
    repeat (ok_step; cbn -[cmp_holds Qcompare truthy py_eq py_all]);
    exfalso; match goal with
             | H : bool_decide (_ < length [])%nat = true |- _ => by vm_compute in H
             end.
Qed.

Lemma add_reco_ok g text priority :
  g !! "recommendations" = None ∨ (∃ l, g !! "recommendations" = Some (VList l)) →
  ∃ l', add_reco g text priority = Ok (<["recommendations" := VList l']> g).
Proof.
  unfold add_reco, fact_getitem. intros [Hn|[l Hl]].
  - rewrite Hn, lookup_insert_eq. cbn [mbind result_bind].
    rewrite insert_insert_eq. eauto.
  - rewrite Hl. cbn [mbind result_bind]. rewrite Hl. eauto.
Qed.

Lemma wf_store_insert_recos g l :
  wf_store g → wf_store (<["recommendations" := VList l]> g).
Proof.
  intros (H1 & H2 & H3 & H4 & H5 & H6 & H7 & H8 & _). unfold wf_store.
  rewrite !lookup_insert_ne by done. rewrite lookup_insert_eq.
  split_and!; try done. right. eauto.
Qed.

Lemma wf_store_insert_best g b :
  wf_store g → is_move b → wf_store (<["best_move" := b]> g).
Proof.
  intros (H1 & H2 & H3 & _ & H5 & H6 & H7 & H8 & H9) Hb. unfold wf_store.
  rewrite lookup_insert_eq.
  split_and!; try (rewrite lookup_insert_ne by done; assumption).
  right. eauto.
Qed.

Lemma best_move_known_move g (rest : result bool) :
  wf_store g → best_move_known g &? rest = Ok true →
  ∃ nm ident ty power eff score,
    g !! "best_move" = Some (move_record nm ident ty power eff score).
Proof.
  intros (_ & _ & _ & Hbest & _) Hw. unfold best_move_known, fact_get in Hw.
  destruct Hbest as [Hn|(b & Hb & nm & ident & ty & power & eff & score & ->)].
  - rewrite Hn in Hw. discriminate.
  - eauto 10.
Qed.

Lemma wf_then_ok str_of capitalize r g :
  r ∈ rules str_of capitalize → wf_store g → when r g = Ok true →
  ∃ g', then_ r g = Ok g' ∧ wf_store g'.
Proof.
  intros Hr Hwf Hw. pose proof Hwf as Hwf'.
  destruct Hwf' as ([hp Hhp] & [ehp Hehp] & (ms & Hms & Hall) & Hbest & [mt Hmt] &
             [et Het] & [mp Hmp] & [ep Hep] & Hrec).
  assert (∀ text p, ∃ g', add_reco g text p = Ok g' ∧ wf_store g') as Hadd.
  { intros text p. destruct (add_reco_ok g text p Hrec) as [l' ->].
    eexists. split; [done|]. by apply wf_store_insert_recos. }
  each_rule Hr; unfold_rules; try apply Hadd.
  - destruct ms as [|m0 ms].
    { unfold fact_nonempty, fact_get in Hw. rewrite Hms in Hw.
      destruct (bool_decide (g !! "best_move" = None)); discriminate. }
    destruct (compute_best_move_spec g (m0 :: ms) Hms) as (b & sb & -> & Hb & _).
    { done. } { eapply Forall_impl; [exact Hall | apply is_move_scored]. }
    eexists. split; [done|]. apply wf_store_insert_best; [done|].
    by eapply Forall_forall in Hall.
  - destruct (best_move_known_move g _ Hwf Hw)
      as (nm & ident & ty & power & eff & score & Hb).
    unfold best_move_field, fact_getitem. rewrite Hb. apply Hadd.
  - destruct (best_move_known_move g _ Hwf Hw)
      as (nm & ident & ty & power & eff & score & Hb).
    unfold best_move_field, fact_getitem. rewrite Hb. apply Hadd.
  - unfold fact_getitem. rewrite Hmp, Hep. apply Hadd.
Qed.

Lemma wf_store_battle mine theirs my_types enemy_types my_hp enemy_hp
  my_adv enemy_adv moves prio defensive faster slower :
  Forall is_move moves →
  wf_store (battle mine theirs my_types enemy_types my_hp enemy_hp
              my_adv enemy_adv moves prio defensive faster slower).
Proof.
  intros Hm. unfold wf_store, battle.
  split_and!;
    repeat (rewrite lookup_insert_ne by done);
    rewrite ?lookup_insert_eq, ?lookup_empty; eauto.
Qed.

(** X6: on a store as [main()] builds it the shipped rules raise nothing: the
    run returns, whatever [max_loops], and its store is of the same shape. *)
Theorem shipped_rules_return_on_battle_stores
  str_of capitalize (ls : gset string → list string) (f : FactBase) (n : Z) :
  wf_store f →
  ∃ res, forward_chain ls f (rules str_of capitalize) n = Ok res ∧
         wf_store (facts res).
Proof.
  intros Hwf. unfold forward_chain.
  destruct (loops_returns wf_store (Z.to_nat n) (rules str_of capitalize)
              (init_state f)) as (st' & -> & Hst'); [|done|by eexists].
  intros r g Hr Hg. destruct (wf_when_ok str_of capitalize r g Hr Hg) as [b Hb].
  exists b. split; [done|]. intros ->. by apply (wf_then_ok str_of capitalize).
Qed.

Lemma shipped_rules_return_on_battle_stores_witness :
  wf_store scenario3 ∧
  ∃ res, forward_chain elements scenario3 shipped_rules 20 = Ok res ∧
         wf_store (facts res).
Proof.
  assert (wf_store scenario3) as H.
  { apply wf_store_battle. repeat constructor; apply is_move_move. }
  split; [exact H|].
  exact (shipped_rules_return_on_battle_stores show capitalize_ascii elements
           scenario3 20 H).
Defined.

(** X7: the first condition tried, R1's, reads [f["my_hp_pct"]]; on a store
    without that key a run that sweeps at all raises [KeyError]. *)
Theorem missing_hp_raises_KeyError
  str_of capitalize (ls : gset string → list string) (f : FactBase) (n : Z) :
  f !! "my_hp_pct" = None → (1 <= n)%Z →
  forward_chain ls f (rules str_of capitalize) n = Raise KeyError.
Proof.
  intros Hf Hn. unfold forward_chain.
  destruct (Z.to_nat n) as [|k] eqn:Hk; [lia|].
  rewrite loops_S, rules_split.
  unfold pre_rules. rewrite <- app_comm_cons.
  rewrite (sweep_cons_raise _ _ _ _ KeyError); [done | apply not_elem_of_empty |].
  unfold_rules. unfold_reads. cbn [init_state st_facts]. by rewrite Hf.
Qed.

Lemma missing_hp_raises_KeyError_witness :
  delete "my_hp_pct" scenario3 !! "my_hp_pct" = None ∧ (1 <= 20)%Z ∧
  forward_chain elements (delete "my_hp_pct" scenario3) shipped_rules 20
    = Raise KeyError.
Proof.
  split; [apply lookup_delete_eq|]. split; [lia|].
  apply (missing_hp_raises_KeyError show capitalize_ascii elements
           (delete "my_hp_pct" scenario3) 20); [apply lookup_delete_eq | lia].
Defined.

(** ** The loop bound *)

Lemma last_false_not_all_true (sw : list bool) :
  Forall (λ b, b = true) sw → last sw = Some false → False.
Proof.
  intros Hall Hl. apply last_Some in Hl as [sw' ->].
  rewrite Forall_app, Forall_singleton in Hall. by destruct Hall.
Qed.

Lemma loops_hist_stable n m rs st log sw st' log' sw' :
  Forall (λ b, b = true) sw →
  loops_hist n rs st log sw = Ok (st', log', sw') →
  last sw' = Some false → (n ≤ m)%nat →
  loops_hist m rs st log sw = Ok (st', log', sw').
Proof.
  revert m st log sw. induction n as [|n IH]; intros m st log sw Hsw H Hl Hm.
  - injection H as <- <- <-. by destruct (last_false_not_all_true sw).
  - destruct m as [|m]; [lia|]. rewrite loops_hist_S in H. rewrite loops_hist_S.
    destruct (sweep_hist rs st false log) as [[[st1 any1] log1]|e]; [|done].
    cbn [mbind result_bind fst snd] in H |- *. destruct any1; [|done].
    apply IH; [|done|done|lia].
    apply Forall_app. split; [done|]. by apply Forall_singleton.
Qed.

(** X8: a run that stopped because a sweep fired nothing gives the same result
    under any larger [max_loops]. *)
Theorem larger_max_loops_same_result
  (ls : gset string → list string) (f : FactBase) (rs : list Rule) (n m : Z)
  (res : InferenceResult) :
  forward_chain ls f rs n = Ok res →
  last (sweep_flags f rs n) = Some false →
  (n <= m)%Z →
  forward_chain ls f rs m = Ok res.
Proof.
  intros H Hl Hm.
  apply forward_chain_run in H as (st & log & sw & Hrun & -> & _ & Hsw).
  rewrite Hsw in Hl. apply (run_forward_chain ls f rs m st log sw).
  unfold run_hist in Hrun |- *.
  eapply loops_hist_stable; [constructor | exact Hrun | exact Hl | lia].
Qed.

Lemma larger_max_loops_same_result_witness :
  ∃ res, forward_chain elements scenario1 shipped_rules 2 = Ok res ∧
    last (sweep_flags scenario1 shipped_rules 2) = Some false ∧
    (2 <= 20)%Z ∧
    forward_chain elements scenario1 shipped_rules 20 = Ok res.
Proof.
  eexists. split; [vm_compute; reflexivity|]. split; [vm_compute; reflexivity|].
  split; [lia|].
  apply (larger_max_loops_same_result elements scenario1 shipped_rules 2 20);
    [vm_compute; reflexivity | vm_compute; reflexivity | lia].
Defined.

Lemma loops_hist_count n rs st log sw st' log' sw' :
  hist_inv st log →
  loops_hist n rs st log sw = Ok (st', log', sw') →
  ∃ k, (length log + k ≤ length log')%nat ∧
    (k = n ∧ sw' = sw ++ replicate k true ∨
     (k < n)%nat ∧ sw' = sw ++ replicate k true ++ [false]).
Proof.
  revert st log sw. induction n as [|n IH]; intros st log sw Hi H.
  - injection H as <- <- <-. exists 0%nat. split; [lia|]. left.
    by rewrite app_nil_r.
  - rewrite loops_hist_S in H.
    apply bind_Ok in H as ([[st1 any1] log1] & Hs & H). cbn [fst snd] in H.
    destruct (sweep_hist_inv _ _ _ _ _ _ _ Hs Hi) as (Hi1 & new & -> & _ & Hany).
    destruct any1.
    + destruct (IH _ _ _ Hi1 H) as (k & Hlen & Hk).
      assert (new ≠ []) as Hnew.
      { intros ->. by rewrite bool_decide_eq_true_2 in Hany. }
      exists (S k). rewrite length_app in Hlen. split.
      { destruct new; [done|]. simpl in Hlen. lia. }
      destruct Hk as [[-> ->]|[Hk ->]]; [left|right];
        (split; [lia|]); by rewrite <- app_assoc.
    + injection H as <- <- <-. exists 0%nat. split; [rewrite length_app; lia|].
      right. split; [lia|done].
Qed.

Lemma log_length_bound (rs log : list Rule) :
  NoDup (name <$> log) → log ⊆ rs → (length log ≤ length rs)%nat.
Proof.
  intros Hn Hsub. apply submseteq_length, NoDup_submseteq; [|done].
  by eapply NoDup_fmap_1.
Qed.

(** X9: a run performs at most one sweep more than there are rules, and with
    [max_loops] above the number of rules it always ends on a sweep that
    fired nothing: the bound does not cut it short. *)
Theorem run_ends_within_rule_count
  (ls : gset string → list string) (f : FactBase) (rs : list Rule) (n : Z)
  (res : InferenceResult) :
  forward_chain ls f rs n = Ok res →
  (length (sweep_flags f rs n) ≤ S (length rs))%nat ∧
  ((Z.of_nat (length rs) < n)%Z → last (sweep_flags f rs n) = Some false).
Proof.
  intros H.
  apply forward_chain_run in H as (st & log & sw & Hrun & _ & _ & ->).
  unfold run_hist in Hrun.
  destruct (loops_hist_inv _ _ _ _ _ _ _ _ Hrun (hist_inv_init f))
    as ((_ & _ & Hnd) & new & Hnew & Hsub).
  simpl in Hnew. subst new.
  pose proof (log_length_bound rs log Hnd Hsub) as Hlen.
  destruct (loops_hist_count _ _ _ _ _ _ _ _ (hist_inv_init f) Hrun)
    as (k & Hk & Hsw).
  simpl in Hk, Hsw.
  destruct Hsw as [[Hkn ->]|[Hkn ->]].
  - split; [rewrite length_replicate; lia|]. intros Hn. lia.
  - split; [rewrite length_app, length_replicate; simpl; lia|].
    intros _. by rewrite last_snoc.
Qed.

Lemma run_ends_within_rule_count_witness :
  ∃ res, forward_chain elements scenario1 shipped_rules 20 = Ok res ∧
    (length (sweep_flags scenario1 shipped_rules 20) ≤ S (length shipped_rules))%nat ∧
    ((Z.of_nat (length shipped_rules) < 20)%Z →
     last (sweep_flags scenario1 shipped_rules 20) = Some false).
Proof.
  eexists. split; [vm_compute; reflexivity|].
  eapply (run_ends_within_rule_count elements scenario1 shipped_rules 20).
  vm_compute; reflexivity.
Defined.

(** ** The recommendations of a run *)

Lemma rule_then_appends str_of capitalize r g g' :
  r ∈ rules str_of capitalize → name r ≠ "D1_COMPUTE_BEST_MOVE" →
  then_ r g = Ok g' →
  ∃ l text priority, recos_of g = VList l ∧ (40 <= priority <= 97)%Z ∧
    g' = <["recommendations" := VList (l ++ [reco text priority])]> g.
Proof.
  intros Hr Hn H. each_rule Hr; unfold_rules; try done;
    repeat match type of H with
           | _ ≫= _ = Ok _ => apply bind_Ok in H as (? & ? & H)
           end;
    apply add_reco_appends in H as (l & Hl & ->);
    eexists _, _, _; (split; [exact Hl|]); (split; [|reflexivity]); lia.
Qed.

Lemma recos_inv_step str_of capitalize l0 r st0 g' :
  r ∈ rules str_of capitalize → recos_inv l0 st0 → name r ∉ st_fired st0 →
  then_ r (st_facts st0) = Ok g' → recos_inv l0 (fire r g' st0).
Proof.
  intros Hr (new & Hrec & Hall & Hsize) Hnew Ht.
  assert (size ({[name r]} ∪ st_fired st0) = S (size (st_fired st0))) as Hsz.
  { rewrite size_union by set_solver. by rewrite size_singleton. }
  destruct (decide (name r = "D1_COMPUTE_BEST_MOVE")) as [Hn|Hn].
  - destruct (rule_then_spec _ _ _ _ _ Hr Ht) as [[Hn' _]|(_ & b & _ & ->)]; [done|].
    exists new. cbn [fire st_facts st_fired]. rewrite recos_of_insert_best, Hsz.
    split_and!; [done..|]. rewrite Hn in Hnew |- *.
    rewrite decide_False in Hsize by done.
    rewrite decide_True by (apply elem_of_union_l, elem_of_singleton; done). lia.
  - destruct (rule_then_appends _ _ _ _ _ Hr Hn Ht) as (l & text & p & Hl & Hp & ->).
    rewrite Hrec in Hl. injection Hl as <-.
    exists (new ++ [reco text p]). cbn [fire st_facts st_fired].
    rewrite recos_of_insert_recos, Hsz, app_assoc, length_app. simpl.
    split_and!; [done| |].
    { apply Forall_app. split; [done|]. apply Forall_singleton. by exists text, p. }
    destruct (decide ("D1_COMPUTE_BEST_MOVE" ∈ st_fired st0)) as [Hd|Hd].
    + rewrite decide_True by (by apply elem_of_union_r). lia.
    + rewrite decide_False; [lia|].
      intros [Hx%elem_of_singleton|Hx]%elem_of_union; [by apply Hn|done].
Qed.

(** X10: a run of the shipped rules keeps the recommendations it found and
    appends one per rule fired, D1 apart, each a record with a text and a
    priority between 40 and 97. *)
Theorem one_recommendation_per_fired_rule
  str_of capitalize (ls : gset string → list string) (f : FactBase) (n : Z)
  (res : InferenceResult) (l0 : list value) :
  (∀ X, ls X ≡ₚ elements X) →
  recos_of f = VList l0 →
  forward_chain ls f (rules str_of capitalize) n = Ok res →
  ∃ new, recos_of (facts res) = VList (l0 ++ new) ∧ Forall is_reco new ∧
    length (fired_rules res) =
      (length new +
       if decide ("D1_COMPUTE_BEST_MOVE" ∈ fired_rules res) then 1 else 0)%nat.
Proof.
  intros Hls H0 H. unfold forward_chain in H.
  apply bind_Ok in H as (st & Hl & [= <-]). cbn [facts fired_rules].
  destruct (loops_inv (recos_inv l0) _ _ _ _
              (λ r st0 g' Hr Hi Hn _ Ht,
                 recos_inv_step str_of capitalize l0 r st0 g' Hr Hi Hn Ht)
              (ltac:(exists []; rewrite app_nil_r; by split_and!) :
                 recos_inv l0 (init_state f)) Hl)
    as ((new & Hrec & Hall & Hsize) & _).
  exists new. split_and!; [done..|].
  rewrite (Permutation_length (Hls _)).
  change (length (elements (st_fired st))) with (size (st_fired st)).
  rewrite Hsize. f_equal.
  destruct (decide ("D1_COMPUTE_BEST_MOVE" ∈ st_fired st)) as [Hd|Hd].
  - rewrite decide_True; [done|]. by apply (enum_perm_elem ls).
  - rewrite decide_False; [done|]. by rewrite (enum_perm_elem ls _ _ Hls).
Qed.

Lemma one_recommendation_per_fired_rule_witness :
  ∃ res, forward_chain elements scenario3 shipped_rules 20 = Ok res ∧
    recos_of scenario3 = VList [] ∧
    ∃ new, recos_of (facts res) = VList ([] ++ new) ∧ Forall is_reco new ∧
      length (fired_rules res) =
        (length new +
         if decide ("D1_COMPUTE_BEST_MOVE" ∈ fired_rules res) then 1 else 0)%nat.
Proof.
  eexists. split; [vm_compute; reflexivity|]. split; [vm_compute; reflexivity|].
  apply (one_recommendation_per_fired_rule show capitalize_ascii elements
           scenario3 20);
    [exact elements_enumerates | vm_compute; reflexivity | vm_compute; reflexivity].
Defined.

(** ** The best move *)



(** ** Type advantage *)

Lemma SFltb_trans a b c :
  SFltb a b = true → SFltb b c = true → SFltb a c = true.
Proof.
  unfold SFltb, SFcompare.
  destruct a as [sa|sa| |sa ma ea], b as [sb|sb| |sb mb eb], c as [sc|sc| |sc mc ec];
    try destruct sa; try destruct sb; try destruct sc; try discriminate; try done.
  all: rewrite ?Pos.compare_cont_spec; simpl.
  all: destruct (Z.compare_spec ea eb), (Z.compare_spec eb ec),
         (Z.compare_spec ea ec); subst; try lia; try discriminate; try done.
  all: rewrite ?Pos.compare_cont_spec; simpl.
  all: destruct (Pos.compare_spec ma mb), (Pos.compare_spec mb mc),
         (Pos.compare_spec ma mc); subst; simpl; try lia; try discriminate; try done.
Qed.

Lemma ltb_trans (a b c : float) :
  (a <? b)%float = true → (b <? c)%float = true → (a <? c)%float = true.
Proof. rewrite !ltb_spec. apply SFltb_trans. Qed.

Lemma best_loop_advantage ats dts chart best :
  best = 1%float ∨ (1 <? best)%float = true →
  (1 <? Main.best_loop ats dts chart best)%float = true ↔
  (1 <? best)%float = true ∨
  ∃ t, t ∈ ats ∧ (1 <? effectiveness t dts chart)%float = true.
Proof.
  revert best. induction ats as [|t ats IH]; intros best Hbest; simpl.
  - split; [by left|]. intros [H|(t & Ht & _)]; [done|by apply elem_of_nil in Ht].
  - destruct (best <? effectiveness t dts chart)%float eqn:Hlt.
    + assert ((1 <? effectiveness t dts chart)%float = true) as Heff.
      { destruct Hbest as [->|Hb]; [done|by eapply ltb_trans]. }
      rewrite IH by (by right). split; [|by left].
      intros _. right. exists t. split; [apply list_elem_of_here|done].
    + rewrite IH by done. split.
      * intros [H|(t' & Ht' & H)]; [by left|]. right. exists t'.
        split; [by apply list_elem_of_further|done].
      * intros [H|(t' & [->|Ht']%elem_of_cons & H)]; [by left| |].
        -- destruct Hbest as [->|Hb]; [congruence|by left].
        -- right. by exists t'.
Qed.

(** X12: [has_type_advantage] answers whether some attacking type has an
    effectiveness above 1.0 against the defending types, in both versions. *)
Theorem has_type_advantage_iff_some_type_above_one
  (attacking_types defending_types : list string) (chart : type_chart) :
  (Main.has_type_advantage attacking_types defending_types chart = true ↔
   ∃ t, t ∈ attacking_types ∧
        (1 <? effectiveness t defending_types chart)%float = true) ∧
  (AppStreamlit.has_type_advantage attacking_types defending_types chart = true ↔
   ∃ t, t ∈ attacking_types ∧
        (1 <? effectiveness t defending_types chart)%float = true).
Proof.
  assert (Main.has_type_advantage attacking_types defending_types chart = true ↔
          ∃ t, t ∈ attacking_types ∧
               (1 <? effectiveness t defending_types chart)%float = true) as HM.
  { unfold Main.has_type_advantage. rewrite best_loop_advantage by (by left).
    split; [|by right]. by intros [H|H]. }
  split; [exact HM|].
  unfold AppStreamlit.has_type_advantage.
  destruct (bool_decide (attacking_types = [])) eqn:Ha.
  { apply bool_decide_eq_true in Ha as ->. simpl. split; [done|].
    intros (t & Ht & _). by apply elem_of_nil in Ht. }
  destruct (bool_decide (defending_types = [])) eqn:Hd.
  { apply bool_decide_eq_true in Hd as ->. simpl. split; [done|].
    intros (t & _ & Ht). by vm_compute in Ht. }
  simpl. rewrite <- best_loop_same. exact HM.
Qed.

Lemma effectiveness_loop_unknown chart attacking dts :
  chart !! attacking = None →
  effectiveness_loop chart attacking dts 1%float = 1%float.
Proof.
  intros Hc. induction dts as [|dt dts IH]; simpl; [done|].
  unfold chart_get. rewrite Hc. simpl. rewrite lookup_empty. simpl.
  change (1 * 1)%float with 1%float. exact IH.
Qed.

(** X13: an attacking type of ASCII characters that the chart has no row
    for, once in lower case, is neutral: its effectiveness is 1.0 against
    any defending types. *)
Theorem effectiveness_unknown_attacker
  (attacking : string) (defending_types : list string) (chart : type_chart) :
  ascii_only attacking = true →
  chart !! lower attacking = None →
  effectiveness attacking defending_types chart = 1%float.
Proof.
  intros _ Hc. unfold effectiveness. by apply effectiveness_loop_unknown.
Qed.

Lemma effectiveness_unknown_attacker_witness :
  ascii_only "Fire" = true ∧
  ({[ "water" := {[ "fire" := 2%float ]} ]} : type_chart) !! lower "Fire" = None ∧
  effectiveness "Fire" ["grass"; "poison"] {[ "water" := {[ "fire" := 2%float ]} ]}
    = 1%float.
Proof.
  split; [reflexivity|]. split; [reflexivity|].
  apply (effectiveness_unknown_attacker "Fire" ["grass"; "poison"]
           {[ "water" := {[ "fire" := 2%float ]} ]}); reflexivity.
Defined.

(** ** Identifiers *)

Lemma normalize_map s : replace_char " "%char "-"%char (lower s) = string_map norm_char s.
Proof. induction s as [|c s IH]; simpl; [done|]. by rewrite IH. Qed.

Lemma norm_char_idem c : norm_char (norm_char c) = norm_char c.
Proof. by destruct c as [[] [] [] [] [] [] [] []]. Qed.

Lemma norm_char_space c : is_space c = false → is_space (norm_char c) = false.
Proof. by destruct c as [[] [] [] [] [] [] [] []]. Qed.

Lemma norm_char_clean c :
  Ascii.eqb (norm_char c) " "%char = false ∧ is_upper (norm_char c) = false.
Proof. by destruct c as [[] [] [] [] [] [] [] []]. Qed.

Lemma norm_char_ascii c :
  bool_decide (Ascii.nat_of_ascii c < 128)%nat = true →
  bool_decide (Ascii.nat_of_ascii (norm_char c) < 128)%nat = true.
Proof. by destruct c as [[] [] [] [] [] [] [] []]. Qed.

Lemma string_map_idem s :
  string_map norm_char (string_map norm_char s) = string_map norm_char s.
Proof. induction s as [|c s IH]; simpl; [done|]. by rewrite norm_char_idem, IH. Qed.

(** A stripped string starts and ends with a character that is no space. *)
Lemma lstrip_head s :
  lstrip s = EmptyString ∨ ∃ c s', lstrip s = String c s' ∧ is_space c = false.
Proof.
  induction s as [|c s IH]; simpl; [by left|].
  destruct (is_space c) eqn:Hc; [done|]. right. eauto.
Qed.

Lemma rstrip_idem s : rstrip (rstrip s) = rstrip s.
Proof.
  induction s as [|c s IH]; simpl; [done|].
  destruct (rstrip s) as [|c' r] eqn:Hr.
  - destruct (is_space c) eqn:Hc; simpl; [done|]. by rewrite Hc.
  - change (rstrip (String c (String c' r)))
      with (match rstrip (String c' r) with
            | EmptyString => if is_space c then EmptyString else String c EmptyString
            | r' => String c r'
            end).
    by rewrite IH.
Qed.

Lemma lstrip_rstrip c s :
  is_space c = false → lstrip (rstrip (String c s)) = rstrip (String c s).
Proof.
  intros Hc. simpl. destruct (rstrip s); rewrite ?Hc; simpl; by rewrite Hc.
Qed.

Lemma strip_lstrip s : lstrip (strip s) = strip s.
Proof.
  unfold strip. destruct (lstrip_head s) as [->|(c & s' & -> & Hc)]; [done|].
  by apply lstrip_rstrip.
Qed.

Lemma strip_rstrip s : rstrip (strip s) = strip s.
Proof. apply rstrip_idem. Qed.

Lemma lstrip_map s : lstrip s = s → lstrip (string_map norm_char s) = string_map norm_char s.
Proof.
  destruct s as [|c s]; simpl; [done|].
  destruct (is_space c) eqn:Hc.
  - intros H. apply (f_equal String.length) in H. simpl in H.
    assert (∀ t, (String.length (lstrip t) ≤ String.length t)%nat) as Hle.
    { clear. induction t as [|c t IH]; simpl; [done|].
      destruct (is_space c); simpl; lia. }
    specialize (Hle s). lia.
  - intros _. by rewrite norm_char_space.
Qed.

Lemma rstrip_map s : rstrip s = s → rstrip (string_map norm_char s) = string_map norm_char s.
Proof.
  induction s as [|c s IH]; simpl; [done|].
  destruct (rstrip s) as [|c' r] eqn:Hr.
  - destruct (is_space c) eqn:Hc; [done|]. intros [= <-]. simpl.
    by rewrite norm_char_space.
  - intros [= <-]. rewrite IH by done. done.
Qed.

Lemma strip_clean s : lstrip s = s → rstrip s = s → strip s = s.
Proof. unfold strip. by intros -> ->. Qed.

Lemma string_forall_map s :
  string_forall (λ c, negb (Ascii.eqb c " "%char) && negb (is_upper c))
    (string_map norm_char s) = true.
Proof.
  induction s as [|c s IH]; simpl; [done|].
  destruct (norm_char_clean c) as [-> ->]. by rewrite IH.
Qed.

(** X14: on a name of ASCII characters [normalize_identifier] gives a
    canonical form: normalising it again changes nothing, it has no space and
    no capital letter, and no white space at either end. *)
Theorem normalize_identifier_canonical (name : string) :
  ascii_only name = true →
  normalize_identifier (normalize_identifier name) = normalize_identifier name ∧
  string_forall (λ c, negb (Ascii.eqb c " "%char) && negb (is_upper c))
    (normalize_identifier name) = true ∧
  strip (normalize_identifier name) = normalize_identifier name.
Proof.
  intros _. unfold normalize_identifier. rewrite !normalize_map.
  assert (strip (string_map norm_char (strip name))
          = string_map norm_char (strip name)) as Hs.
  { apply strip_clean.
    - apply lstrip_map, strip_lstrip.
    - apply rstrip_map, strip_rstrip. }
  rewrite Hs. split_and!; [apply string_map_idem | apply string_forall_map | done].
Qed.

Lemma normalize_identifier_canonical_witness :
  ascii_only "  Mr Mime " = true ∧
  normalize_identifier "  Mr Mime " = "mr-mime" ∧
  normalize_identifier (normalize_identifier "  Mr Mime ")
    = normalize_identifier "  Mr Mime ".
Proof.
  split; [reflexivity|]. split; [reflexivity|].
  exact (proj1 (normalize_identifier_canonical "  Mr Mime " eq_refl)).
Defined.

(** ** A run in which no rule fires *)

Lemma loops_untouched n rs f st :
  loops n rs (init_state f) = Ok st → st_fired st = ∅ → st_facts st = f.
Proof.
  intros H.
  destruct (loops_inv (λ st, st_fired st = ∅ → st_facts st = f) n rs
              (init_state f) st) as (Hi & _); [| done | done | done].
  intros r st0 g' _ _ _ _ _ Hf. simpl in Hf.
  assert (name r ∈ ({[name r]} ∪ st_fired st0 : gset string)) as Hin
    by (apply elem_of_union_l; by apply elem_of_singleton).
  rewrite Hf in Hin. by apply not_elem_of_empty in Hin.
Qed.

(** X15: a run in which no rule fired returns the store it was given and an
    empty trace. *)
Theorem nothing_fired_nothing_changed
  (ls : gset string → list string) (f : FactBase) (rs : list Rule) (n : Z)
  (res : InferenceResult) :
  (∀ X, ls X ≡ₚ elements X) →
  forward_chain ls f rs n = Ok res →
  fired_rules res = [] →
  facts res = f ∧ trace res = [].
Proof.
  intros Hls H Hf.
  apply forward_chain_run in H as (st & log & sw & Hrun & -> & _ & _).
  unfold run_hist in Hrun. cbn [facts fired_rules trace] in *.
  destruct (loops_hist_inv _ _ _ _ _ _ _ _ Hrun (hist_inv_init f))
    as ((Ht & Hfi & _) & _).
  assert (st_fired st = ∅) as He.
  { apply set_eq. intros x. rewrite <- (enum_perm_elem ls _ x Hls), Hf.
    split; [by intros Hx%elem_of_nil | by intros Hx%not_elem_of_empty]. }
  split.
  - apply (loops_untouched (Z.to_nat n) rs); [|done].
    by rewrite (loops_hist_erase _ _ _ [] []), Hrun.
  - rewrite Ht. rewrite He in Hfi. destruct log as [|r log]; [done|].
    exfalso. simpl in Hfi.
    assert (name r ∈ (∅ : gset string)) as Hin
      by (rewrite Hfi; apply elem_of_union_l; by apply elem_of_singleton).
    by apply not_elem_of_empty in Hin.
Qed.

Lemma nothing_fired_nothing_changed_witness :
  ∃ res, forward_chain elements quiet_store shipped_rules 20 = Ok res ∧
    fired_rules res = [] ∧ facts res = quiet_store ∧ trace res = [].
Proof.
  eexists. split; [vm_compute; reflexivity|]. split; [vm_compute; reflexivity|].
  apply (nothing_fired_nothing_changed elements quiet_store shipped_rules 20);
    [exact elements_enumerates | vm_compute; reflexivity | vm_compute; reflexivity].
Defined.
